(** * Acequia water-allocation policy (StudentSolution.cpp)

    A shallow embedding of the hourly allocation policy [solveProblems] and of
    its helpers, followed by the properties of the policy.

    Numbers.  The C++ source computes on [double].  The embedding uses Rocq's
    primitive binary64 floats ([PrimFloat.float]), so every arithmetic
    operation and comparison below rounds and compares exactly as the IEEE 754
    operations of the program do; decimal literals such as [0.8] and [3.6]
    denote the nearest binary64 value, as they do in C++.  General theorems
    go through the specification of the primitive operations
    ([FloatAxioms], [SpecFloat]).

    Objects.  The engine owns the regions and the canals and hands out
    pointers to them.  A pointer is modelled as an optional position in the
    engine's collection ([None] is [nullptr]); the collection itself is the
    store, so a write through a canal pointer is visible to every later read
    of that canal. *)

From Stdlib Require Import ZArith List String Ascii Bool Lia Permutation.
From Stdlib Require Import Floats.
Import ListNotations.

Set Implicit Arguments.
Set Warnings "-inexact-float".

(** ** Data model

    [Region], [Canal] and [AcequiaManager] are declared in acequia_manager.h,
    which is not part of the sources; the records below hold the members the
    policy reads and writes, under the names the source uses. *)

Definition double := float.

Module Region.
(** Modelled from the spec: a region has a name, a level, a need and a
    capacity (spec §3); the source reads them as [r->name], [r->waterLevel],
    [r->waterNeed] and [r->waterCapacity]. *)
Record t := mk
  { name : string;
    waterLevel : double;
    waterNeed : double;
    waterCapacity : double }.
End Region.

Module Canal.
(** Modelled from the spec: a canal has a name, a flow-rate and a gate
    (spec §3); the source reads [c->name] and writes the other two through
    the mutators below. *)
Record t := mk
  { name : string;
    flowRate : double;
    isOpen : bool }.

(** Modelled from the spec: the two mutators of a canal handle are declared
    in acequia_manager.h, which is not part of the sources.  The spec (§3,
    §6) describes them as plain setters of the flow-rate and of the gate. *)
Definition setFlowRate (rate : double) (c : t) : t :=
  {| name := name c; flowRate := rate; isOpen := isOpen c |}.

Definition toggleOpen (open : bool) (c : t) : t :=
  {| name := name c; flowRate := flowRate c; isOpen := open |}.
End Canal.

(** A [Region*] or [Canal*]: a position in the engine's collection, or null. *)
Definition ptr := option nat.

(** Modelled from the spec: the part of [AcequiaManager] the policy touches
    (spec §6).  [getRegions()] and [getCanals()] are the two collections;
    [hour] and [SimulationMax] are integer counters. *)
Record AcequiaManager := mkManager
  { regions : list Region.t;
    canals : list Canal.t;
    isSolved : bool;
    hour : Z;
    SimulationMax : Z }.

Definition deref {A} (store : list A) (p : ptr) : option A :=
  match p with
  | None => None
  | Some i => nth_error store i
  end.

(** Write through a pointer: the object at position [i] is replaced by its
    image under [f]; the other objects are untouched. *)
Fixpoint update {A} (i : nat) (f : A -> A) (store : list A) : list A :=
  match store, i with
  | [], _ => []
  | x :: rest, O => f x :: rest
  | x :: rest, S j => x :: update j f rest
  end.

Definition with_canals (cs : list Canal.t) (m : AcequiaManager) : AcequiaManager :=
  {| regions := regions m; canals := cs; isSolved := isSolved m;
     hour := hour m; SimulationMax := SimulationMax m |}.

(** ** The helpers of the policy *)

Local Open Scope float_scope.

(** [std::max(a, b)] is [(a < b) ? b : a]. *)
Definition std_max (a b : double) : double := if a <? b then b else a.

(** [std::min({a, b, c})] returns the first smallest element: the running
    minimum is replaced only by a strictly smaller element. *)
Definition std_min3 (a b c : double) : double :=
  let s := a in
  let s := if b <? s then b else s in
  if c <? s then c else s.

Definition computeSafeSurplus (r : option Region.t) : double :=
  match r with
  | None => 0.0
  | Some r =>
      let minLevelByNeed := 0.8 * Region.waterNeed r in
      let minLevelByCap := 0.3 * Region.waterCapacity r in
      let minLevel := std_max minLevelByNeed minLevelByCap in
      if Region.waterLevel r <=? minLevel then 0.0
      else
        let keepLevel := std_max minLevel (Region.waterNeed r) in
        if Region.waterLevel r <=? keepLevel then 0.0
        else Region.waterLevel r - keepLevel
  end.

Definition computeDeficit (r : option Region.t) : double :=
  match r with
  | None => 0.0
  | Some r =>
      if Region.waterNeed r <=? Region.waterLevel r then 0.0
      else Region.waterNeed r - Region.waterLevel r
  end.

Definition closeAllCanals (cs : list Canal.t) : list Canal.t :=
  map (fun c => Canal.toggleOpen false (Canal.setFlowRate 0.0 c)) cs.

(** The rate [scheduleTransfer] writes for [amount], when it writes one. *)
Definition transferRate (amount : double) : option double :=
  if amount <=? 0.0 then None
  else
    let flowRate := amount / 3.6 in
    let flowRate := if 1.0 <? flowRate then 1.0 else flowRate in
    if flowRate <=? 0.0 then None else Some flowRate.

Definition scheduleTransfer (canal : ptr) (amount : double)
    (cs : list Canal.t) : list Canal.t :=
  match canal with
  | None => cs
  | Some i =>
      match transferRate amount with
      | None => cs
      | Some flowRate =>
          update i (fun c => Canal.toggleOpen true (Canal.setFlowRate flowRate c)) cs
      end
  end.

(** ** Identity resolution *)

Local Open Scope string_scope.

(** [name.find(key) != std::string::npos]. *)
Definition contains (key s : string) : bool :=
  match index 0 key s with
  | Some _ => true
  | None => false
  end.

Record RegionRoles := mkRegionRoles
  { north : ptr; south : ptr; east : ptr }.

Record CanalRoles := mkCanalRoles
  { canalA : ptr;   (* North -> South *)
    canalB : ptr;   (* South -> East *)
    canalC : ptr;   (* North -> East *)
    canalD : ptr }. (* East  -> North *)

(** One iteration of the region loop, for the region [r] found at position [i]. *)
Definition regionStep (i : nat) (r : Region.t) (acc : RegionRoles) : RegionRoles :=
  if (Region.name r =? "North")%string then
    {| north := Some i; south := south acc; east := east acc |}
  else if (Region.name r =? "South")%string then
    {| north := north acc; south := Some i; east := east acc |}
  else if (Region.name r =? "East")%string then
    {| north := north acc; south := south acc; east := Some i |}
  else acc.

Fixpoint findRegionsFrom (i : nat) (rs : list Region.t) (acc : RegionRoles) : RegionRoles :=
  match rs with
  | [] => acc
  | r :: rest => findRegionsFrom (S i) rest (regionStep i r acc)
  end.

Definition findRegions (rs : list Region.t) : RegionRoles :=
  findRegionsFrom 0 rs {| north := None; south := None; east := None |}.

(** One iteration of the canal loop, for the canal [c] found at position [i]. *)
Definition canalStep (i : nat) (c : Canal.t) (acc : CanalRoles) : CanalRoles :=
  if contains "A" (Canal.name c) then
    {| canalA := Some i; canalB := canalB acc; canalC := canalC acc; canalD := canalD acc |}
  else if contains "B" (Canal.name c) then
    {| canalA := canalA acc; canalB := Some i; canalC := canalC acc; canalD := canalD acc |}
  else if contains "C" (Canal.name c) then
    {| canalA := canalA acc; canalB := canalB acc; canalC := Some i; canalD := canalD acc |}
  else if contains "D" (Canal.name c) then
    {| canalA := canalA acc; canalB := canalB acc; canalC := canalC acc; canalD := Some i |}
  else acc.

Fixpoint findCanalsFrom (i : nat) (cs : list Canal.t) (acc : CanalRoles) : CanalRoles :=
  match cs with
  | [] => acc
  | c :: rest => findCanalsFrom (S i) rest (canalStep i c acc)
  end.

Definition findCanals (cs : list Canal.t) : CanalRoles :=
  findCanalsFrom 0 cs
    {| canalA := None; canalB := None; canalC := None; canalD := None |}.

Local Close Scope string_scope.

(** ** The pairwise transfer evaluator and the hourly pass *)

(** The lambda [tryTransfer] of [solveProblems].  A non-null pointer always
    designates an object of the engine; the [None] branch of the second
    dereference is there for totality only ([computeDeficit] has already
    returned [0.0] for it). *)
Definition tryTransfer (src dst canal : ptr) (m : AcequiaManager) : AcequiaManager :=
  match src, dst, canal with
  | Some _, Some _, Some _ =>
      let need := computeDeficit (deref (regions m) dst) in
      let surplus := computeSafeSurplus (deref (regions m) src) in
      if (need <=? 0.0) || (surplus <=? 0.0) then m
      else
        match deref (regions m) dst with
        | None => m
        | Some d =>
            let maxBeforeFlood := Region.waterCapacity d - Region.waterLevel d in
            if maxBeforeFlood <=? 0.0 then m
            else
              let amount := std_min3 need surplus (maxBeforeFlood * 0.8) in
              if amount <=? 0.0 then m
              else with_canals (scheduleTransfer canal amount (canals m)) m
        end
  | _, _, _ => m
  end.

(** The body of the [while] loop up to, and excluding, [manager.nexthour()]. *)
Definition hourlyPass (rr : RegionRoles) (cr : CanalRoles)
    (m : AcequiaManager) : AcequiaManager :=
  let m := with_canals (closeAllCanals (canals m)) m in
  let m := tryTransfer (north rr) (south rr) (canalA cr) m in
  let m := tryTransfer (north rr) (east rr) (canalC cr) m in
  let m := tryTransfer (south rr) (east rr) (canalB cr) m in
  let m := tryTransfer (east rr) (north rr) (canalD cr) m in
  m.



Section Policy.

(** [AcequiaManager::nexthour] belongs to the engine: it moves the water,
    updates flags and penalties, advances [hour] and may set [isSolved]. *)
Variable nexthour : AcequiaManager -> AcequiaManager.

Definition running (m : AcequiaManager) : bool :=
  negb (isSolved m) && negb (hour m =? SimulationMax m)%Z.

(** The [while] loop; [None] when [fuel] iterations were not enough. *)
Fixpoint hourlyLoop (fuel : nat) (rr : RegionRoles) (cr : CanalRoles)
    (m : AcequiaManager) : option AcequiaManager :=
  if running m then
    match fuel with
    | O => None
    | S fuel' => hourlyLoop fuel' rr cr (nexthour (hourlyPass rr cr m))
    end
  else Some m.


End Policy.

(** * Auxiliary definitions for the proofs *)

Local Open Scope Z_scope.

(** ** An order-preserving reading of the valid binary64 values

    Every finite binary64 value is an integer multiple of [2 ^ -1074]; the
    reading below is that integer.  The infinities are read as a value
    beyond every finite one; the reading of NaN is irrelevant. *)
Definition beyond : Z := 2 ^ 2100.

Definition SF2Z (f : spec_float) : Z :=
  match f with
  | S754_zero _ => 0
  | S754_infinity s => cond_Zopp s beyond
  | S754_nan => 0
  | S754_finite s m e => cond_Zopp s (Zpos m * 2 ^ (e + 1074))
  end.

Definition is_nan_sf (f : spec_float) : bool :=
  match f with S754_nan => true | _ => false end.

Definition is_finite_sf (f : spec_float) : bool :=
  match f with
  | S754_zero _ | S754_finite _ _ _ => true
  | _ => false
  end.

Definition signed_as (s : bool) (f : spec_float) : Prop :=
  match f with
  | S754_zero s' | S754_infinity s' | S754_finite s' _ _ => s' = s
  | S754_nan => False
  end.

(** The number of low bits that [shr_fexp] drops from [m] at exponent [e]. *)
Definition dropped (m e : Z) : Z :=
  Z.max 0 (fexp prec emax (Zdigits2 m + e) - e).

Definition F2Z (x : float) : Z := SF2Z (Prim2SF x).

(** The binary64 value of the literal [3.6]. *)
Definition sf_3_6 : spec_float := S754_finite false 8106479329266893 (-51).

Local Close Scope Z_scope.

(** ** Regions whose numbers are numbers

    The policy assumes that a region's volumes can be compared with one
    another (spec §3): none of them is NaN. *)
Definition numeric (r : Region.t) : bool :=
  negb (is_nan (Region.waterLevel r))
  && negb (is_nan (Region.waterNeed r))
  && negb (is_nan (Region.waterCapacity r)).

(** The level a region keeps for itself: [keepLevel] of [computeSafeSurplus]. *)
Definition keepLevel (r : Region.t) : double :=
  std_max (std_max (0.8 * Region.waterNeed r) (0.3 * Region.waterCapacity r))
          (Region.waterNeed r).

(** [std::min(a, b)] is [(b < a) ? b : a]. *)
Definition std_min (a b : double) : double := if b <? a then b else a.

Definition sampleNorth : Region.t := Region.mk "North" 100 50 200.

Definition sampleSouth : Region.t := Region.mk "South" 10 80 100.


(** ** The decision of the pairwise evaluator, and the accumulated sums *)

(** The amount [tryTransfer] hands to [scheduleTransfer] for a pair of
    regions read in the collection [rs]; [None] when it returns early. *)
Definition decision (rs : list Region.t) (src dst : ptr) : option double :=
  match src, dst with
  | Some _, Some _ =>
      let need := computeDeficit (deref rs dst) in
      let surplus := computeSafeSurplus (deref rs src) in
      if (need <=? 0.0) || (surplus <=? 0.0) then None
      else
        match deref rs dst with
        | None => None
        | Some d =>
            let maxBeforeFlood := Region.waterCapacity d - Region.waterLevel d in
            if maxBeforeFlood <=? 0.0 then None
            else
              let amount := std_min3 need surplus (maxBeforeFlood * 0.8) in
              if amount <=? 0.0 then None else Some amount
        end
  | _, _ => None
  end.

Definition applyDecision (canal : ptr) (a : option double)
    (cs : list Canal.t) : list Canal.t :=
  match a with
  | Some amount => scheduleTransfer canal amount cs
  | None => cs
  end.



Definition closed (c : Canal.t) : Prop :=
  Canal.flowRate c = 0 /\ Canal.isOpen c = false.

(** ** Sample scenarios *)

Definition sampleEast : Region.t := Region.mk "East" 50 50 100.

Definition sampleCanals : list Canal.t :=
  [ Canal.mk "A" 0.25 true; Canal.mk "B" 0 false;
    Canal.mk "C" 1 true; Canal.mk "D" 0.5 false ].

Definition sampleManager : AcequiaManager :=
  {| regions := [sampleNorth; sampleSouth; sampleEast];
     canals := sampleCanals;
     isSolved := false; hour := 0; SimulationMax := 3 |}.


(** North can spare 2; South and East both lack 70. *)
Definition thirstyManager : AcequiaManager :=
  {| regions := [ Region.mk "North" 62 50 200;
                  Region.mk "South" 10 80 100;
                  Region.mk "East" 10 80 100 ];
     canals := sampleCanals;
     isSolved := false; hour := 0; SimulationMax := 3 |}.

(** ** The four roles of the topology *)

Inductive role := RoleA | RoleB | RoleC | RoleD.

(** The role the chain of substring tests of the canal loop gives a name. *)
Definition keyOf (name : string) : option role :=
  if contains "A" name then Some RoleA
  else if contains "B" name then Some RoleB
  else if contains "C" name then Some RoleC
  else if contains "D" name then Some RoleD
  else None.

Definition getRole (k : role) (cr : CanalRoles) : ptr :=
  match k with
  | RoleA => canalA cr
  | RoleB => canalB cr
  | RoleC => canalC cr
  | RoleD => canalD cr
  end.

(** Four canals whose names spell out the word before the key. *)
Definition canalNamedA : Canal.t := Canal.mk "Canal A" 0 false.
Definition canalNamedB : Canal.t := Canal.mk "Canal B" 0 false.
Definition canalNamedC : Canal.t := Canal.mk "Canal C" 0 false.
Definition canalNamedD : Canal.t := Canal.mk "Canal D" 0 false.

Definition namedCanals : list Canal.t :=
  [canalNamedA; canalNamedB; canalNamedC; canalNamedD].

Definition namedCanalsSwapped : list Canal.t :=
  [canalNamedA; canalNamedB; canalNamedD; canalNamedC].

(** Four canals whose names are the bare keys, in some order. *)
Definition keyA : Canal.t := Canal.mk "A" 0 false.
Definition keyB : Canal.t := Canal.mk "B" 1 true.
Definition keyC : Canal.t := Canal.mk "C" 0 false.
Definition keyD : Canal.t := Canal.mk "D" 0 false.

Definition shuffledCanals : list Canal.t := [keyD; keyB; keyA; keyC].


(** ** What an hourly pass does to a canal, by name *)

Definition roleEqb (k k' : role) : bool :=
  match k, k' with
  | RoleA, RoleA | RoleB, RoleB | RoleC, RoleC | RoleD, RoleD => true
  | _, _ => false
  end.

Definition hasRole (k : role) (c : Canal.t) : bool :=
  match keyOf (Canal.name c) with
  | Some k' => roleEqb k k'
  | None => false
  end.

(** The canal [c] after [scheduleTransfer] has been applied to it for the
    decision [a]. *)
Definition scheduledCanal (a : option double) (c : Canal.t) : Canal.t :=
  match a with
  | Some amount =>
      match transferRate amount with
      | Some flowRate => Canal.toggleOpen true (Canal.setFlowRate flowRate c)
      | None => c
      end
  | None => c
  end.

(** The state in which an hourly pass leaves the canal [c], from the name of
    the canal and the regions alone. *)
Definition plannedCanal (rs : list Region.t) (rr : RegionRoles) (c : Canal.t) : Canal.t :=
  let c0 := Canal.toggleOpen false (Canal.setFlowRate 0.0 c) in
  match keyOf (Canal.name c) with
  | Some RoleA => scheduledCanal (decision rs (north rr) (south rr)) c0
  | Some RoleB => scheduledCanal (decision rs (south rr) (east rr)) c0
  | Some RoleC => scheduledCanal (decision rs (north rr) (east rr)) c0
  | Some RoleD => scheduledCanal (decision rs (east rr) (north rr)) c0
  | None => c0
  end.

(** ** The three places of the topology *)

Inductive place := PlaceNorth | PlaceSouth | PlaceEast.

(** The place the chain of equality tests of the region loop gives a name. *)
Definition placeOf (name : string) : option place :=
  if (name =? "North")%string then Some PlaceNorth
  else if (name =? "South")%string then Some PlaceSouth
  else if (name =? "East")%string then Some PlaceEast
  else None.

Definition getPlace (k : place) (rr : RegionRoles) : ptr :=
  match k with
  | PlaceNorth => north rr
  | PlaceSouth => south rr
  | PlaceEast => east rr
  end.

(** A region whose level is not a number. *)
Definition brokenRegion : Region.t := Region.mk "North" nan 50 200.

(** Three regions that sit exactly at their keep level (60, 80 and 50). *)
Definition settledManager : AcequiaManager :=
  {| regions := [ Region.mk "North" 60 50 200;
                  Region.mk "South" 80 80 100;
                  Region.mk "East" 50 50 100 ];
     canals := sampleCanals;
     isSolved := false; hour := 0; SimulationMax := 3 |}.

(** South lacks water but is already at its capacity. *)
Definition brimfulManager : AcequiaManager :=
  {| regions := [ Region.mk "North" 100 50 200;
                  Region.mk "South" 80 90 80;
                  Region.mk "East" 50 50 100 ];
     canals := sampleCanals;
     isSolved := false; hour := 0; SimulationMax := 3 |}.

Definition allClosed : list Canal.t :=
  [ Canal.mk "A" 0 false; Canal.mk "B" 0 false;
    Canal.mk "C" 0 false; Canal.mk "D" 0 false ].

(** ** Definitions for the properties of the resolution loops and of the pass *)

(** What a loop of the form [for x at position i: if P x then p = i] leaves in
    [p], started at position [i] with [acc] in [p]. *)
Fixpoint lastIndexFrom {A} (P : A -> bool) (i : nat) (l : list A)
    (acc : option nat) : option nat :=
  match l with
  | [] => acc
  | x :: rest => lastIndexFrom P (S i) rest (if P x then Some i else acc)
  end.

(** A name carries the key of a role when it contains the letter of the role
    and the letter of no role tested before it. *)
Definition carries (k : role) (name : string) : bool :=
  match k with
  | RoleA => contains "A" name
  | RoleB => negb (contains "A" name) && contains "B" name
  | RoleC => negb (contains "A" name) && negb (contains "B" name)
             && contains "C" name
  | RoleD => negb (contains "A" name) && negb (contains "B" name)
             && negb (contains "C" name) && contains "D" name
  end.

Definition placeName (k : place) : string :=
  match k with
  | PlaceNorth => "North"
  | PlaceSouth => "South"
  | PlaceEast => "East"
  end.

Definition named (k : place) (r : Region.t) : bool :=
  (Region.name r =? placeName k)%string.

(** A canal as [closeAllCanals] leaves it. *)
Definition resetCanal (c : Canal.t) : Canal.t :=
  Canal.toggleOpen false (Canal.setFlowRate 0.0 c).

(** A canal that is open with a rate in (0, 1]. *)
Definition flowing (c : Canal.t) : Prop :=
  Canal.isOpen c = true
  /\ (0 <? Canal.flowRate c) = true /\ (Canal.flowRate c <=? 1) = true.

Definition with_regions (rs : list Region.t) (m : AcequiaManager) : AcequiaManager :=
  {| regions := rs; canals := canals m; isSolved := isSolved m;
     hour := hour m; SimulationMax := SimulationMax m |}.

(** The amount the evaluator computes for a source and a destination, read
    as objects rather than through pointers. *)
Definition decisionOf (src dst : option Region.t) : option double :=
  match src, dst with
  | Some s, Some d =>
      let need := computeDeficit (Some d) in
      let surplus := computeSafeSurplus (Some s) in
      if (need <=? 0.0) || (surplus <=? 0.0) then None
      else
        let maxBeforeFlood := Region.waterCapacity d - Region.waterLevel d in
        if maxBeforeFlood <=? 0.0 then None
        else
          let amount := std_min3 need surplus (maxBeforeFlood * 0.8) in
          if amount <=? 0.0 then None else Some amount
  | _, _ => None
  end.

(** [p == &canals[j]]. *)
Definition ptrIs (p : ptr) (j : nat) : bool :=
  match p with
  | Some i => Nat.eqb i j
  | None => false
  end.

Definition openCount (cs : list Canal.t) : nat :=
  List.length (filter Canal.isOpen cs).


(** Two canals of role A, a canal of no role, and a canal of role B. *)
Definition twinCanals : list Canal.t :=
  [ Canal.mk "A" 0.5 true; Canal.mk "Spillway" 1 true;
    Canal.mk "A (new)" 0 false; Canal.mk "B" 0.25 true ].

Definition twinManager : AcequiaManager :=
  {| regions := [sampleNorth; sampleSouth; sampleEast];
     canals := twinCanals;
     isSolved := false; hour := 0; SimulationMax := 3 |}.

(** A manager whose only region is North. *)
Definition loneManager : AcequiaManager :=
  {| regions := [sampleNorth];
     canals := sampleCanals;
     isSolved := false; hour := 0; SimulationMax := 3 |}.

(** The binary64 value of the literal [0.8]. *)
Definition sf_0_8 : spec_float := S754_finite false 7205759403792794 (-53).

(** The regions of [thirstyManager] with the canals named "Canal A" to
    "Canal D", in the order A, B, C, D and with the last two exchanged. *)
Definition namedManager : AcequiaManager :=
  {| regions := regions thirstyManager;
     canals := namedCanals;
     isSolved := false; hour := 0; SimulationMax := 3 |}.

Definition namedManagerSwapped : AcequiaManager :=
  {| regions := regions thirstyManager;
     canals := namedCanalsSwapped;
     isSolved := false; hour := 0; SimulationMax := 3 |}.

(** A region that is none of the three the policy looks for. *)
Definition sampleWest : Region.t := Region.mk "West" 70 40 90.

Definition fourRegions : list Region.t :=
  [sampleNorth; sampleSouth; sampleEast; sampleWest].

Definition fourRegionsShuffled : list Region.t :=
  [sampleWest; sampleEast; sampleNorth; sampleSouth].

(** * Binary64 facts *)

Section Binary64.


Local Open Scope Z_scope.

(** The number of binary digits of a positive number brackets it between two
    consecutive powers of two. *)
Lemma digits2_pos_bounds (p : positive) :
  2 ^ (Zpos (digits2_pos p) - 1) <= Zpos p < 2 ^ Zpos (digits2_pos p).
Proof.
  induction p as [p IH | p IH | ]; cbn [digits2_pos].
  - rewrite Pos2Z.inj_succ.
    replace (Z.succ (Zpos (digits2_pos p)) - 1) with (Z.succ (Zpos (digits2_pos p) - 1)) by lia.
    rewrite !Z.pow_succ_r by lia. lia.
  - rewrite Pos2Z.inj_succ.
    replace (Z.succ (Zpos (digits2_pos p)) - 1) with (Z.succ (Zpos (digits2_pos p) - 1)) by lia.
    rewrite !Z.pow_succ_r by lia. lia.
  - cbn. lia.
Qed.

Lemma digits2_pos_le (p : positive) (d : Z) :
  0 <= d -> Zpos p < 2 ^ d -> Zpos (digits2_pos p) <= d.
Proof.
  intros Hd Hp.
  destruct (Z_le_gt_dec (Zpos (digits2_pos p)) d) as [|Hgt]; [assumption|].
  pose proof (digits2_pos_bounds p) as [Hlo _].
  assert (2 ^ d <= 2 ^ (Zpos (digits2_pos p) - 1)) by (apply Z.pow_le_mono_r; lia).
  lia.
Qed.

Lemma digits2_pos_ge (p : positive) (d : Z) :
  2 ^ d <= Zpos p -> d < Zpos (digits2_pos p).
Proof.
  intros Hp.
  destruct (Z_lt_le_dec d (Zpos (digits2_pos p))) as [|Hle]; [assumption|].
  pose proof (digits2_pos_bounds p) as [_ Hhi].
  assert (2 ^ Zpos (digits2_pos p) <= 2 ^ d) by (apply Z.pow_le_mono_r; lia).
  lia.
Qed.

(** The smallest exponent of the format, and what a canonical pair
    (mantissa, exponent) looks like. *)
Lemma emin_eq : emin = -1074.
Proof. reflexivity. Qed.

Lemma fexp_eq (k : Z) : fexp prec emax k = Z.max (k - 53) (-1074).
Proof. reflexivity. Qed.

Lemma bounded_inv (m : positive) (e : Z) :
  bounded prec emax m e = true ->
  -1074 <= e <= 971 /\ Zpos m < 2 ^ 53 /\ (-1074 < e -> 2 ^ 52 <= Zpos m).
Proof.
  unfold bounded, canonical_mantissa. rewrite fexp_eq.
  intros H. apply andb_prop in H as [Hc He].
  apply Z.eqb_eq in Hc. apply Z.leb_le in He.
  change (emax - prec) with 971 in He.
  pose proof (digits2_pos_bounds m) as [Hlo Hhi].
  assert (Hd : Zpos (digits2_pos m) <= 53) by lia.
  repeat split; try lia.
  - apply Z.lt_le_trans with (1 := Hhi). apply Z.pow_le_mono_r; lia.
  - intros Hn. assert (Zpos (digits2_pos m) = 53) as Heq by lia.
    rewrite Heq in Hlo. exact Hlo.
Qed.

Lemma finite_magnitude (m : positive) (e : Z) :
  bounded prec emax m e = true ->
  0 < Zpos m * 2 ^ (e + 1074) < beyond.
Proof.
  intros H. apply bounded_inv in H as (He & Hm & _).
  assert (0 < 2 ^ (e + 1074)) by (apply Z.pow_pos_nonneg; lia).
  split; [nia|].
  assert (2 ^ (e + 1074) <= 2 ^ 2045) by (apply Z.pow_le_mono_r; lia).
  assert (Hb : beyond = 2 ^ 53 * 2 ^ 2045 * 4).
  { unfold beyond. rewrite <- Z.pow_add_r by lia. change 4 with (2 ^ 2).
    rewrite <- Z.pow_add_r by lia. reflexivity. }
  rewrite Hb.
  assert (0 < 2 ^ 2045) by (apply Z.pow_pos_nonneg; lia).
  assert (0 < 2 ^ 53) by (apply Z.pow_pos_nonneg; lia).
  generalize dependent (2 ^ (e + 1074)). generalize dependent (2 ^ 2045).
  generalize dependent (2 ^ 53). intros. nia.
Qed.

Lemma finite_compare (m1 m2 : positive) (e1 e2 : Z) :
  bounded prec emax m1 e1 = true ->
  bounded prec emax m2 e2 = true ->
  match e1 ?= e2 with
  | Lt => Lt
  | Gt => Gt
  | Eq => Pos.compare_cont Eq m1 m2
  end = (Zpos m1 * 2 ^ (e1 + 1074) ?= Zpos m2 * 2 ^ (e2 + 1074)).
Proof.
  intros H1 H2.
  apply bounded_inv in H1 as (He1 & Hm1 & Hn1).
  apply bounded_inv in H2 as (He2 & Hm2 & Hn2).
  assert (Hstep : forall ma mb ea eb,
             -1074 <= ea -> ea < eb -> Zpos ma < 2 ^ 53 -> 2 ^ 52 <= Zpos mb ->
             Zpos ma * 2 ^ (ea + 1074) < Zpos mb * 2 ^ (eb + 1074)).
  { intros ma mb ea eb Ha Hab Hma Hmb.
    assert (Heb : 2 ^ (eb + 1074) = 2 ^ (eb - ea - 1) * 2 * 2 ^ (ea + 1074)).
    { change 2 with (2 ^ 1) at 3. rewrite <- !Z.pow_add_r by lia. f_equal. lia. }
    rewrite Heb.
    assert (0 < 2 ^ (ea + 1074)) by (apply Z.pow_pos_nonneg; lia).
    assert (0 < 2 ^ (eb - ea - 1)) by (apply Z.pow_pos_nonneg; lia).
    change (2 ^ 53) with (2 * 2 ^ 52) in Hma.
    generalize dependent (2 ^ (ea + 1074)). generalize dependent (2 ^ (eb - ea - 1)).
    generalize dependent (2 ^ 52). intros.
    assert (Zpos ma < Zpos mb * (z0 * 2)) by nia.
    nia. }
  destruct (Z.compare_spec e1 e2) as [Heq | Hlt | Hgt].
  - subst e2. assert (0 < 2 ^ (e1 + 1074)) by (apply Z.pow_pos_nonneg; lia).
    rewrite <- Zmult_compare_compat_r by lia. reflexivity.
  - symmetry. apply Z.compare_lt_iff. apply Hstep; lia.
  - symmetry. apply Z.compare_gt_iff. apply Hstep; lia.
Qed.

(** On valid values that are not NaN, [SFcompare] is the comparison of the
    readings. *)
Lemma SFcompare_SF2Z (a b : spec_float) :
  valid_binary a = true -> valid_binary b = true ->
  is_nan_sf a = false -> is_nan_sf b = false ->
  SFcompare a b = Some (SF2Z a ?= SF2Z b).
Proof.
  assert (Hb : 0 < beyond) by (apply Z.pow_pos_nonneg; lia).
  destruct a as [sa | sa | | sa ma ea], b as [sb | sb | | sb mb eb];
    cbn [valid_binary is_nan_sf SF2Z SFcompare]; intros Va Vb Na Nb;
    try discriminate; f_equal.
  - destruct sb; symmetry; cbn [cond_Zopp];
      [apply Z.compare_gt_iff | apply Z.compare_lt_iff]; lia.
  - pose proof (finite_magnitude _ _ Vb).
    destruct sb; symmetry; cbn [cond_Zopp];
      [apply Z.compare_gt_iff | apply Z.compare_lt_iff]; lia.
  - destruct sa; symmetry; cbn [cond_Zopp];
      [apply Z.compare_lt_iff | apply Z.compare_gt_iff]; lia.
  - destruct sa, sb; symmetry; cbn [cond_Zopp];
      first [apply Z.compare_eq_iff; lia | apply Z.compare_lt_iff; lia
            | apply Z.compare_gt_iff; lia].
  - pose proof (finite_magnitude _ _ Vb).
    destruct sa; symmetry; cbn [cond_Zopp];
      [apply Z.compare_lt_iff | apply Z.compare_gt_iff]; destruct sb; cbn [cond_Zopp]; lia.
  - pose proof (finite_magnitude _ _ Va).
    destruct sa; symmetry; cbn [cond_Zopp];
      [apply Z.compare_lt_iff | apply Z.compare_gt_iff]; lia.
  - pose proof (finite_magnitude _ _ Va).
    destruct sb; symmetry; cbn [cond_Zopp];
      [apply Z.compare_gt_iff | apply Z.compare_lt_iff]; destruct sa; cbn [cond_Zopp]; lia.
  - pose proof (finite_magnitude _ _ Va). pose proof (finite_magnitude _ _ Vb).
    pose proof (finite_compare _ _ _ _ Va Vb) as Hc.
    destruct sa, sb; cbn [cond_Zopp].
    + rewrite Z.compare_opp, (Z.compare_antisym (Zpos ma * _) (Zpos mb * _)), <- Hc.
      destruct (ea ?= eb); reflexivity.
    + symmetry; apply Z.compare_lt_iff; lia.
    + symmetry; apply Z.compare_gt_iff; lia.
    + exact Hc.
Qed.


(** ** Rounding: what [shr], [shr_fexp] and [binary_round_aux] compute *)

Lemma shr_1_m (mrs : shr_record) :
  0 <= shr_m mrs -> shr_m (shr_1 mrs) = shr_m mrs / 2.
Proof.
  destruct mrs as [m r s]; cbn [shr_m shr_1]. intros Hm.
  destruct m as [ | [p | p | ] | p]; cbn [shr_m]; try reflexivity; try lia.
  - apply Z.div_unique with (r := 1); lia.
  - apply Z.div_unique with (r := 0); lia.
Qed.

Lemma iter_shr_1_m (p : positive) (mrs : shr_record) :
  0 <= shr_m mrs ->
  shr_m (iter_pos shr_1 p mrs) = shr_m mrs / 2 ^ Zpos p.
Proof.
  revert mrs. induction p as [p IH | p IH | ]; intros mrs Hm; cbn [iter_pos].
  - assert (H1 : 0 <= shr_m (shr_1 mrs)) by (rewrite shr_1_m by lia; apply Z.div_pos; lia).
    assert (0 < 2 ^ Zpos p) by (apply Z.pow_pos_nonneg; lia).
    assert (H2 : 0 <= shr_m (iter_pos shr_1 p (shr_1 mrs)))
      by (rewrite IH by lia; apply Z.div_pos; lia).
    rewrite IH, IH, shr_1_m by lia.
    rewrite !Z.div_div by lia. f_equal.
    replace (Zpos p~1) with (1 + Zpos p + Zpos p) by lia.
    rewrite !Z.pow_add_r by lia. change (2 ^ 1) with 2. lia.
  - assert (0 < 2 ^ Zpos p) by (apply Z.pow_pos_nonneg; lia).
    assert (H2 : 0 <= shr_m (iter_pos shr_1 p mrs))
      by (rewrite IH by lia; apply Z.div_pos; lia).
    rewrite IH, IH by lia.
    rewrite Z.div_div by lia. f_equal.
    replace (Zpos p~0) with (Zpos p + Zpos p) by lia.
    rewrite Z.pow_add_r by lia. reflexivity.
  - rewrite shr_1_m by lia. reflexivity.
Qed.

Lemma shr_fexp_eq (m e : Z) (l : location) :
  0 <= m ->
  shr_m (fst (shr_fexp prec emax m e l)) = m / 2 ^ dropped m e /\
  snd (shr_fexp prec emax m e l) = e + dropped m e.
Proof.
  intros Hm. unfold shr_fexp, dropped, shr.
  assert (Hr : shr_m (shr_record_of_loc m l) = m) by (destruct l as [ | [ | | ]]; reflexivity).
  destruct (fexp prec emax (Zdigits2 m + e) - e) as [ | p | p] eqn:Hn; cbn [fst snd].
  - rewrite Hr, Z.max_l by lia. rewrite Z.pow_0_r, Z.div_1_r. split; lia.
  - rewrite iter_shr_1_m by lia. rewrite Hr, Z.max_r by lia. split; reflexivity.
  - rewrite Hr, Z.max_l by lia. rewrite Z.pow_0_r, Z.div_1_r. split; lia.
Qed.

Lemma round_nearest_even_cases (mx : Z) (lx : location) :
  round_nearest_even mx lx = mx \/ round_nearest_even mx lx = mx + 1.
Proof.
  destruct lx as [ | [ | | ]]; cbn [round_nearest_even]; auto.
  destruct (Z.even mx); auto.
Qed.

(** [binary_round_aux] truncates, rounds by at most one unit, and truncates
    again (which renormalises after a carry). *)
Lemma binary_round_aux_eq (s : bool) (mx ex : Z) (lx : location) :
  0 <= mx ->
  exists m2,
    let m1 := mx / 2 ^ dropped mx ex in
    let e1 := ex + dropped mx ex in
    let m3 := m2 / 2 ^ dropped m2 e1 in
    let e3 := e1 + dropped m2 e1 in
    (m2 = m1 \/ m2 = m1 + 1) /\
    binary_round_aux prec emax s mx ex lx =
      match m3 with
      | Z0 => S754_zero s
      | Zpos m => if e3 <=? 971 then S754_finite s m e3 else S754_infinity s
      | Zneg _ => S754_nan
      end.
Proof.
  intros Hm. unfold binary_round_aux.
  pose proof (shr_fexp_eq ex lx Hm) as [H1 H1e].
  destruct (shr_fexp prec emax mx ex lx) as [mrs' e'] eqn:E1. cbn [fst snd] in H1, H1e.
  set (m2 := round_nearest_even (shr_m mrs') (loc_of_shr_record mrs')).
  exists m2. cbv zeta.
  assert (H0 : 0 <= mx / 2 ^ dropped mx ex).
  { apply Z.div_pos; [lia|]. apply Z.pow_pos_nonneg; unfold dropped; lia. }
  assert (Hm2 : m2 = mx / 2 ^ dropped mx ex \/ m2 = mx / 2 ^ dropped mx ex + 1).
  { rewrite <- H1. apply round_nearest_even_cases. }
  split; [exact Hm2|].
  assert (Hm2' : 0 <= m2) by lia.
  pose proof (shr_fexp_eq e' loc_Exact Hm2') as [H3 H3e].
  destruct (shr_fexp prec emax m2 e' loc_Exact) as [mrs'' e''] eqn:E2.
  cbn [fst snd] in H3, H3e. subst e' e''. rewrite H3. reflexivity.
Qed.

Lemma binary_round_aux_sign (s : bool) (mx ex : Z) (lx : location) :
  0 <= mx -> signed_as s (binary_round_aux prec emax s mx ex lx).
Proof.
  intros Hm. destruct (binary_round_aux_eq s ex lx Hm) as (m2 & Hm2 & ->).
  cbv zeta in *.
  assert (0 <= mx / 2 ^ dropped mx ex).
  { apply Z.div_pos; [lia|]. apply Z.pow_pos_nonneg; unfold dropped; lia. }
  assert (0 <= m2 / 2 ^ dropped m2 (ex + dropped mx ex)).
  { apply Z.div_pos; [lia|]. apply Z.pow_pos_nonneg; unfold dropped; lia. }
  destruct (m2 / 2 ^ dropped m2 (ex + dropped mx ex)); cbn; try lia; auto.
  destruct (_ <=? 971); cbn; auto.
Qed.

Lemma signed_as_not_nan (s : bool) (f : spec_float) :
  signed_as s f -> is_nan_sf f = false.
Proof. destruct f; cbn; intros; [reflexivity .. | contradiction | reflexivity]. Qed.

Lemma signed_as_SF2Z (s : bool) (f : spec_float) :
  signed_as s f -> if s then SF2Z f <= 0 else 0 <= SF2Z f.
Proof.
  assert (0 < beyond) by (apply Z.pow_pos_nonneg; lia).
  destruct f as [s' | s' | | s' m e]; cbn [signed_as SF2Z]; intros Hs;
    try contradiction; subst s'.
  - destruct s; lia.
  - destruct s; cbn [cond_Zopp]; lia.
  - assert (0 <= 2 ^ (e + 1074)) by (apply Z.pow_nonneg; lia).
    destruct s; cbn [cond_Zopp]; nia.
Qed.


(** ** Subtraction and multiplication *)

Lemma iter_xO (m d : positive) :
  Zpos (Pos.iter xO m d) = Zpos m * 2 ^ Zpos d.
Proof.
  induction d as [ | d IH] using Pos.peano_ind.
  - cbn. lia.
  - rewrite Pos.iter_succ, Pos2Z.inj_succ, Z.pow_succ_r by lia.
    change (Zpos (Pos.iter xO m d)~0) with (2 * Zpos (Pos.iter xO m d)).
    rewrite IH. lia.
Qed.

Lemma shl_align_eq (m : positive) (e e' : Z) :
  e' <= e -> Zpos (fst (shl_align m e e')) = Zpos m * 2 ^ (e - e').
Proof.
  intros He. unfold shl_align.
  destruct (e' - e) as [ | d | d] eqn:Hd; cbn [fst]; try lia.
  - replace (e - e') with 0 by lia. lia.
  - rewrite iter_xO. f_equal. f_equal. lia.
Qed.

(** The aligned integer of a valid finite value is its reading, up to the
    common scale. *)
Lemma aligned_SF2Z (s : bool) (m : positive) (e ez : Z) :
  -1074 <= ez <= e ->
  cond_Zopp s (Zpos (fst (shl_align m e ez))) * 2 ^ (ez + 1074)
  = SF2Z (S754_finite s m e).
Proof.
  intros He. rewrite shl_align_eq by lia. cbn [SF2Z].
  assert (Hp : 2 ^ (e + 1074) = 2 ^ (e - ez) * 2 ^ (ez + 1074))
    by (rewrite <- Z.pow_add_r by lia; f_equal; lia).
  rewrite Hp. destruct s; cbn [cond_Zopp]; lia.
Qed.

Lemma binary_normalize_sign (m e : Z) :
  let r := binary_normalize prec emax m e false in
  is_nan_sf r = false /\ (m <= 0 -> SF2Z r <= 0) /\ (0 <= m -> 0 <= SF2Z r).
Proof.
  destruct m as [ | p | p]; cbn [binary_normalize]; cbv zeta.
  - cbn. lia.
  - unfold binary_round.
    destruct (shl_align p e _) as [mz ez].
    pose proof (binary_round_aux_sign false ez loc_Exact (Pos2Z.is_nonneg mz)) as Hs.
    split; [exact (signed_as_not_nan _ _ Hs)|].
    pose proof (signed_as_SF2Z _ _ Hs) as Hz. cbv beta iota in Hz. split; lia.
  - unfold binary_round.
    destruct (shl_align p e _) as [mz ez].
    pose proof (binary_round_aux_sign true ez loc_Exact (Pos2Z.is_nonneg mz)) as Hs.
    split; [exact (signed_as_not_nan _ _ Hs)|].
    pose proof (signed_as_SF2Z _ _ Hs) as Hz. cbv beta iota in Hz. split; lia.
Qed.

(** The difference of two values that are not NaN, one of them finite, is
    not NaN and has the sign of the exact difference. *)
Lemma SFsub_sign (a b : spec_float) :
  valid_binary a = true -> valid_binary b = true ->
  is_nan_sf a = false -> is_nan_sf b = false ->
  is_finite_sf a || is_finite_sf b = true ->
  let r := SFsub prec emax a b in
  is_nan_sf r = false /\
  (SF2Z a <= SF2Z b -> SF2Z r <= 0) /\
  (SF2Z b <= SF2Z a -> 0 <= SF2Z r).
Proof.
  assert (Hbeyond : 0 < beyond) by (apply Z.pow_pos_nonneg; lia).
  intros Va Vb Na Nb Fab.
  destruct a as [sa | sa | | sa ma ea]; try discriminate;
    destruct b as [sb | sb | | sb mb eb]; try discriminate; cbv zeta;
    cbn [valid_binary] in Va, Vb;
    try pose proof (finite_magnitude _ _ Va);
    try pose proof (finite_magnitude _ _ Vb).
  - destruct sa, sb; cbn; lia.
  - cbn [SFsub is_nan_sf SF2Z]. destruct sb; cbn [negb cond_Zopp]; lia.
  - cbn [SFsub is_nan_sf SF2Z]. destruct sb; cbn [negb cond_Zopp]; lia.
  - cbn [SFsub is_nan_sf SF2Z]. destruct sa; cbn [negb cond_Zopp]; lia.
  - cbn [SFsub is_nan_sf SF2Z]. destruct sa, sb; cbn [negb cond_Zopp]; lia.
  - cbn [SFsub is_nan_sf SF2Z]. lia.
  - cbn [SFsub is_nan_sf SF2Z]. destruct sa, sb; cbn [negb cond_Zopp]; lia.
  - pose proof (bounded_inv _ _ Va) as (Hea & _).
    pose proof (bounded_inv _ _ Vb) as (Heb & _).
    cbn [SFsub].
    set (ez := Z.min ea eb).
    pose proof (@aligned_SF2Z sa ma ea ez ltac:(unfold ez; lia)) as HA.
    pose proof (@aligned_SF2Z sb mb eb ez ltac:(unfold ez; lia)) as HB.
    set (A := cond_Zopp sa (Zpos (fst (shl_align ma ea ez)))) in *.
    set (B := cond_Zopp sb (Zpos (fst (shl_align mb eb ez)))) in *.
    assert (Hp : 0 < 2 ^ (ez + 1074)) by (apply Z.pow_pos_nonneg; unfold ez; lia).
    pose proof (binary_normalize_sign (A - B) ez) as (Hn & Hle & Hge).
    cbv zeta in Hn, Hle, Hge.
    split; [exact Hn|]. rewrite <- HA, <- HB. split; intros Hab.
    + apply Hle. nia.
    + apply Hge. nia.
Qed.

(** When the first operand is strictly the larger one, the difference carries
    the sign bit of a positive number. *)
Lemma SFsub_pos (a b : spec_float) :
  valid_binary a = true -> valid_binary b = true ->
  is_nan_sf a = false -> is_nan_sf b = false ->
  SF2Z b < SF2Z a ->
  signed_as false (SFsub prec emax a b).
Proof.
  assert (Hbeyond : 0 < beyond) by (apply Z.pow_pos_nonneg; lia).
  intros Va Vb Na Nb.
  destruct a as [sa | sa | | sa ma ea]; try discriminate;
    destruct b as [sb | sb | | sb mb eb]; try discriminate;
    cbn [valid_binary] in Va, Vb;
    try pose proof (finite_magnitude _ _ Va);
    try pose proof (finite_magnitude _ _ Vb);
    cbn [SF2Z]; intros Hlt.
  1-7: repeat match goal with s : bool |- _ => destruct s end;
    cbn [cond_Zopp] in Hlt; try lia; reflexivity.
  - pose proof (bounded_inv _ _ Va) as (Hea & _).
    pose proof (bounded_inv _ _ Vb) as (Heb & _).
    cbn [SFsub].
    set (ez := Z.min ea eb).
    pose proof (@aligned_SF2Z sa ma ea ez ltac:(unfold ez; lia)) as HA.
    pose proof (@aligned_SF2Z sb mb eb ez ltac:(unfold ez; lia)) as HB.
    cbn [SF2Z] in HA, HB.
    set (A := cond_Zopp sa (Zpos (fst (shl_align ma ea ez)))) in *.
    set (B := cond_Zopp sb (Zpos (fst (shl_align mb eb ez)))) in *.
    assert (Hp : 0 < 2 ^ (ez + 1074)) by (apply Z.pow_pos_nonneg; unfold ez; lia).
    assert (HAB : 0 < A - B) by nia.
    destruct (A - B) as [ | p | p]; try lia.
    cbn [binary_normalize]. unfold binary_round.
    destruct (shl_align p ez _) as [mz ez'].
    apply binary_round_aux_sign. lia.
Qed.

(** The product of two values that are finite is not NaN. *)
Lemma SFmul_not_nan (a b : spec_float) :
  is_finite_sf a = true -> is_finite_sf b = true ->
  is_nan_sf (SFmul prec emax a b) = false.
Proof.
  destruct a as [sa | sa | | sa ma ea]; try discriminate;
    destruct b as [sb | sb | | sb mb eb]; try discriminate; intros _ _;
    try reflexivity.
  cbn [SFmul]. eapply signed_as_not_nan, binary_round_aux_sign. lia.
Qed.

(** The product of a value that is not NaN with a finite non-zero value is
    not NaN. *)
Lemma SFmul_not_nan_r (a : spec_float) (sb : bool) (mb : positive) (eb : Z) :
  is_nan_sf a = false ->
  is_nan_sf (SFmul prec emax a (S754_finite sb mb eb)) = false.
Proof.
  destruct a as [sa | sa | | sa ma ea]; try discriminate; intros _; try reflexivity.
  cbn [SFmul]. eapply signed_as_not_nan, binary_round_aux_sign. lia.
Qed.

Lemma SFmul_not_nan_l (a : spec_float) (sb : bool) (mb : positive) (eb : Z) :
  is_nan_sf a = false ->
  is_nan_sf (SFmul prec emax (S754_finite sb mb eb) a) = false.
Proof.
  destruct a as [sa | sa | | sa ma ea]; try discriminate; intros _; try reflexivity.
  cbn [SFmul]. eapply signed_as_not_nan, binary_round_aux_sign. lia.
Qed.

(** ** The primitive operations, through their specification *)

Lemma SFeqb_refl (f : spec_float) : is_nan_sf f = false -> SFeqb f f = true.
Proof.
  destruct f as [s | s | | s m e]; cbn [is_nan_sf]; try discriminate; intros _;
    unfold SFeqb; cbn [SFcompare].
  - reflexivity.
  - destruct s; reflexivity.
  - rewrite Z.compare_refl. fold (Pos.compare m m). rewrite Pos.compare_refl.
    destruct s; reflexivity.
Qed.

Lemma is_nan_spec (x : float) : is_nan x = is_nan_sf (Prim2SF x).
Proof.
  unfold is_nan. rewrite eqb_spec.
  destruct (is_nan_sf (Prim2SF x)) eqn:Hn.
  - destruct (Prim2SF x); try discriminate. reflexivity.
  - rewrite SFeqb_refl by assumption. reflexivity.
Qed.

Lemma is_finite_spec (x : float) : is_finite x = is_finite_sf (Prim2SF x).
Proof.
  unfold is_finite, is_infinity. rewrite is_nan_spec, eqb_spec, abs_spec.
  change (Prim2SF infinity) with (S754_infinity false).
  destruct (Prim2SF x) as [s | s | | s m e]; reflexivity.
Qed.

Lemma is_finite_not_nan (x : float) : is_finite x = true -> is_nan x = false.
Proof.
  rewrite is_finite_spec, is_nan_spec. destruct (Prim2SF x); cbn; congruence.
Qed.

Lemma leb_F2Z (x y : float) :
  is_nan x = false -> is_nan y = false ->
  (x <=? y)%float = (F2Z x <=? F2Z y).
Proof.
  rewrite !is_nan_spec, leb_spec. intros Hx Hy. unfold SFleb, F2Z.
  rewrite (SFcompare_SF2Z _ _ (Prim2SF_valid x) (Prim2SF_valid y) Hx Hy).
  unfold Z.leb. destruct (SF2Z (Prim2SF x) ?= SF2Z (Prim2SF y)); reflexivity.
Qed.

Lemma ltb_F2Z (x y : float) :
  is_nan x = false -> is_nan y = false ->
  (x <? y)%float = (F2Z x <? F2Z y).
Proof.
  rewrite !is_nan_spec, ltb_spec. intros Hx Hy. unfold SFltb, F2Z.
  rewrite (SFcompare_SF2Z _ _ (Prim2SF_valid x) (Prim2SF_valid y) Hx Hy).
  unfold Z.ltb. destruct (SF2Z (Prim2SF x) ?= SF2Z (Prim2SF y)); reflexivity.
Qed.

(** A comparison with NaN is false. *)
Lemma leb_nan_l (x y : float) : is_nan x = true -> (x <=? y)%float = false.
Proof.
  rewrite is_nan_spec, leb_spec. destruct (Prim2SF x); try discriminate. reflexivity.
Qed.

Lemma leb_nan_r (x y : float) : is_nan y = true -> (x <=? y)%float = false.
Proof.
  rewrite is_nan_spec, leb_spec.
  destruct (Prim2SF y); try discriminate. destruct (Prim2SF x); reflexivity.
Qed.

Lemma ltb_nan_l (x y : float) : is_nan x = true -> (x <? y)%float = false.
Proof.
  rewrite is_nan_spec, ltb_spec. destruct (Prim2SF x); try discriminate. reflexivity.
Qed.

Lemma ltb_nan_r (x y : float) : is_nan y = true -> (x <? y)%float = false.
Proof.
  rewrite is_nan_spec, ltb_spec.
  destruct (Prim2SF y); try discriminate. destruct (Prim2SF x); reflexivity.
Qed.

Lemma leb_true_not_nan (x y : float) :
  (x <=? y)%float = true -> is_nan x = false /\ is_nan y = false.
Proof.
  intros H. split.
  - destruct (is_nan x) eqn:E; [rewrite leb_nan_l in H by assumption; discriminate | reflexivity].
  - destruct (is_nan y) eqn:E; [rewrite leb_nan_r in H by assumption; discriminate | reflexivity].
Qed.

Lemma ltb_true_not_nan (x y : float) :
  (x <? y)%float = true -> is_nan x = false /\ is_nan y = false.
Proof.
  intros H. split.
  - destruct (is_nan x) eqn:E; [rewrite ltb_nan_l in H by assumption; discriminate | reflexivity].
  - destruct (is_nan y) eqn:E; [rewrite ltb_nan_r in H by assumption; discriminate | reflexivity].
Qed.

Lemma sub_sign (x y : float) :
  is_nan x = false -> is_nan y = false ->
  is_finite x || is_finite y = true ->
  is_nan (x - y) = false /\
  (F2Z x <= F2Z y -> F2Z (x - y) <= 0) /\
  (F2Z y <= F2Z x -> 0 <= F2Z (x - y)).
Proof.
  rewrite !is_finite_spec, !is_nan_spec. unfold F2Z. rewrite sub_spec.
  intros Nx Ny Fxy.
  exact (SFsub_sign _ _ (Prim2SF_valid x) (Prim2SF_valid y) Nx Ny Fxy).
Qed.

Lemma sub_pos (x y : float) :
  is_nan x = false -> is_nan y = false -> F2Z y < F2Z x ->
  signed_as false (Prim2SF (x - y)).
Proof.
  rewrite !is_nan_spec. unfold F2Z. rewrite sub_spec. intros Nx Ny Hlt.
  exact (SFsub_pos _ _ (Prim2SF_valid x) (Prim2SF_valid y) Nx Ny Hlt).
Qed.

Lemma signed_as_false_nonneg (x : float) :
  signed_as false (Prim2SF x) -> is_nan x = false /\ 0 <= F2Z x.
Proof.
  intros Hs. rewrite is_nan_spec. split.
  - exact (signed_as_not_nan _ _ Hs).
  - exact (signed_as_SF2Z _ _ Hs).
Qed.

(** A value with a positive sign bit whose reading is zero is [+0.0]. *)
Lemma signed_as_false_zero (x : float) :
  signed_as false (Prim2SF x) -> F2Z x <= 0 -> x = 0%float.
Proof.
  assert (Hbeyond : 0 < beyond) by (apply Z.pow_pos_nonneg; lia).
  unfold F2Z. intros Hs Hz. apply Prim2SF_inj.
  change (Prim2SF 0) with (S754_zero false).
  pose proof (Prim2SF_valid x) as Hv.
  destruct (Prim2SF x) as [s | s | | s m e]; cbn [signed_as SF2Z] in *;
    try contradiction; subst s; cbn [cond_Zopp] in Hz.
  - reflexivity.
  - lia.
  - pose proof (finite_magnitude _ _ Hv). lia.
Qed.

Lemma mul_const_not_nan_l (c x : float) :
  is_finite_sf (Prim2SF c) = true -> is_zero c = false \/ is_finite x = true ->
  is_nan x = false -> is_nan (c * x) = false.
Proof.
  rewrite !is_nan_spec, mul_spec, is_finite_spec. unfold is_zero.
  rewrite eqb_spec. change (Prim2SF zero) with (S754_zero false).
  destruct (Prim2SF c) as [s | s | | s m e]; try discriminate; intros _ Hc Nx.
  - destruct Hc as [Hc | Hc]; [destruct s; discriminate|].
    apply SFmul_not_nan; [reflexivity | assumption].
  - apply SFmul_not_nan_l. assumption.
Qed.

Lemma mul_const_not_nan_r (c x : float) :
  is_finite_sf (Prim2SF c) = true -> is_zero c = false \/ is_finite x = true ->
  is_nan x = false -> is_nan (x * c) = false.
Proof.
  rewrite !is_nan_spec, mul_spec, is_finite_spec. unfold is_zero.
  rewrite eqb_spec. change (Prim2SF zero) with (S754_zero false).
  destruct (Prim2SF c) as [s | s | | s m e]; try discriminate; intros _ Hc Nx.
  - destruct Hc as [Hc | Hc]; [destruct s; discriminate|].
    apply SFmul_not_nan; [assumption | reflexivity].
  - apply SFmul_not_nan_r. assumption.
Qed.

Lemma F2Z_zero : F2Z 0 = 0.
Proof. reflexivity. Qed.

Lemma is_nan_zero : is_nan 0 = false.
Proof. reflexivity. Qed.

Lemma leb_true_inv (x y : float) :
  (x <=? y)%float = true -> is_nan x = false /\ is_nan y = false /\ F2Z x <= F2Z y.
Proof.
  intros H. destruct (leb_true_not_nan H) as [Nx Ny].
  rewrite leb_F2Z in H by assumption. apply Z.leb_le in H. auto.
Qed.

Lemma ltb_true_inv (x y : float) :
  (x <? y)%float = true -> is_nan x = false /\ is_nan y = false /\ F2Z x < F2Z y.
Proof.
  intros H. destruct (ltb_true_not_nan H) as [Nx Ny].
  rewrite ltb_F2Z in H by assumption. apply Z.ltb_lt in H. auto.
Qed.

Lemma leb_false_inv (x y : float) :
  is_nan x = false -> is_nan y = false ->
  (x <=? y)%float = false -> F2Z y < F2Z x.
Proof.
  intros Nx Ny H. rewrite leb_F2Z in H by assumption. apply Z.leb_gt in H. exact H.
Qed.

Lemma ltb_false_inv (x y : float) :
  is_nan x = false -> is_nan y = false ->
  (x <? y)%float = false -> F2Z y <= F2Z x.
Proof.
  intros Nx Ny H. rewrite ltb_F2Z in H by assumption. apply Z.ltb_ge in H. exact H.
Qed.

Lemma leb_intro (x y : float) :
  is_nan x = false -> is_nan y = false -> F2Z x <= F2Z y -> (x <=? y)%float = true.
Proof.
  intros Nx Ny H. rewrite leb_F2Z by assumption. apply Z.leb_le. exact H.
Qed.

Lemma ltb_intro (x y : float) :
  is_nan x = false -> is_nan y = false -> F2Z x < F2Z y -> (x <? y)%float = true.
Proof.
  intros Nx Ny H. rewrite ltb_F2Z by assumption. apply Z.ltb_lt. exact H.
Qed.

End Binary64.

Local Close Scope Z_scope.

(** ** Division by 3.6 *)

Section Division.

Local Open Scope Z_scope.

Lemma Zdigits2_le (q d : Z) : 0 <= d -> 0 <= q < 2 ^ d -> Zdigits2 q <= d.
Proof.
  intros Hd [Hq Hlt]. destruct q as [ | p | p]; cbn [Zdigits2]; try lia.
  apply digits2_pos_le; assumption.
Qed.

Lemma Zdigits2_eq (q d : Z) : 0 < d -> 2 ^ (d - 1) <= q < 2 ^ d -> Zdigits2 q = d.
Proof.
  intros Hd [Hlo Hhi].
  assert (0 < 2 ^ (d - 1)) by (apply Z.pow_pos_nonneg; lia).
  destruct q as [ | p | p]; cbn [Zdigits2]; try lia.
  pose proof (@digits2_pos_le p d ltac:(lia) Hhi).
  pose proof (@digits2_pos_ge p (d - 1) Hlo). lia.
Qed.

Lemma div_eucl_div (a b : Z) : fst (Z.div_eucl a b) = a / b.
Proof. unfold Z.div. destruct (Z.div_eucl a b); reflexivity. Qed.

Lemma SFdiv_core_eq (m1 m2 : positive) (e1 e2 : Z) :
  let e' := Z.min (fexp prec emax (Zpos (digits2_pos m1) + e1 - (Zpos (digits2_pos m2) + e2)))
                  (e1 - e2) in
  exists l,
    SFdiv_core_binary prec emax (Zpos m1) e1 (Zpos m2) e2
    = (Zpos m1 * 2 ^ (e1 - e2 - e') / Zpos m2, e', l).
Proof.
  cbv zeta. unfold SFdiv_core_binary. cbn [Zdigits2].
  set (e' := Z.min _ _).
  assert (Hs : 0 <= e1 - e2 - e') by (unfold e'; lia).
  set (m' := match e1 - e2 - e' with Zpos _ => _ | Z0 => _ | Zneg _ => _ end).
  assert (Hm' : m' = Zpos m1 * 2 ^ (e1 - e2 - e')).
  { unfold m'. destruct (e1 - e2 - e') as [ | p | p] eqn:E.
    - rewrite Z.pow_0_r. lia.
    - rewrite Z.shiftl_mul_pow2 by lia. reflexivity.
    - lia. }
  rewrite <- Hm'. rewrite <- (div_eucl_div m' (Zpos m2)).
  destruct (Z.div_eucl m' (Zpos m2)) as [q r]. cbn [fst].
  eexists. reflexivity.
Qed.

Lemma trunc_scaled (m n k : Z) :
  0 <= m -> 0 <= n -> 0 <= k -> m / 2 ^ n * 2 ^ (k + n) <= m * 2 ^ k.
Proof.
  intros Hm Hn Hk. rewrite Z.pow_add_r by lia.
  assert (0 < 2 ^ n) by (apply Z.pow_pos_nonneg; lia).
  assert (0 < 2 ^ k) by (apply Z.pow_pos_nonneg; lia).
  pose proof (Z.mul_div_le m (2 ^ n) ltac:(lia)). nia.
Qed.

Lemma below_power_step (x j K : Z) :
  0 <= j <= K -> x * 2 ^ j < 2 ^ K -> (x + 1) * 2 ^ j <= 2 ^ K.
Proof.
  intros Hj Hx.
  assert (HK : 2 ^ K = 2 ^ (K - j) * 2 ^ j) by (rewrite <- Z.pow_add_r by lia; f_equal; lia).
  assert (0 < 2 ^ j) by (apply Z.pow_pos_nonneg; lia).
  rewrite HK in Hx |- *.
  set (a := 2 ^ (K - j)) in *. set (b := 2 ^ j) in *. clearbody a b.
  assert (x < a) by (apply (Z.mul_lt_mono_pos_r b); assumption).
  apply Z.mul_le_mono_nonneg_r; lia.
Qed.

Lemma below_power_digits (x j K : Z) :
  0 <= j <= K -> 0 <= x -> x * 2 ^ j <= 2 ^ K -> Zdigits2 x <= K - j + 1.
Proof.
  intros Hj H0 Hx. apply Zdigits2_le; [lia|]. split; [lia|].
  assert (HK : 2 ^ K = 2 ^ (K - j) * 2 ^ j) by (rewrite <- Z.pow_add_r by lia; f_equal; lia).
  assert (0 < 2 ^ j) by (apply Z.pow_pos_nonneg; lia).
  assert (0 < 2 ^ (K - j)) by (apply Z.pow_pos_nonneg; lia).
  rewrite Z.pow_add_r by lia. change (2 ^ 1) with 2.
  rewrite HK in Hx.
  set (a := 2 ^ (K - j)) in *. set (b := 2 ^ j) in *. clearbody a b.
  assert (x <= a) by (apply (Z.mul_le_mono_pos_r _ _ b); assumption). lia.
Qed.

(** Rounding a value below one gives at most one. *)
Lemma round_le_one (q e' : Z) (l : location) :
  0 <= q -> -1074 <= e' <= 0 -> q * 2 ^ (e' + 1074) < 2 ^ 1074 ->
  let r := binary_round_aux prec emax false q e' l in
  is_nan_sf r = false /\ SF2Z r <= 2 ^ 1074.
Proof.
  intros Hq He Hlt. cbv zeta.
  split; [exact (signed_as_not_nan _ _ (binary_round_aux_sign false e' l Hq))|].
  destruct (binary_round_aux_eq false e' l Hq) as (m2 & Hm2 & ->). cbv zeta in *.
  set (n1 := dropped q e') in *.
  set (m1 := q / 2 ^ n1) in *.
  assert (Hn1 : 0 <= n1) by (unfold n1, dropped; lia).
  assert (Hdq : Zdigits2 q <= - e' + 1).
  { replace (- e' + 1) with (1074 - (e' + 1074) + 1) by lia.
    apply below_power_digits; lia. }
  assert (He1 : -1074 <= e' + n1 <= 0).
  { unfold n1, dropped. rewrite fexp_eq. lia. }
  assert (Hm1 : 0 <= m1) by (apply Z.div_pos; [lia | apply Z.pow_pos_nonneg; lia]).
  assert (Hm1v : m1 * 2 ^ (e' + n1 + 1074) < 2 ^ 1074).
  { pose proof (@trunc_scaled q n1 (e' + 1074) Hq Hn1 ltac:(lia)) as Ht.
    replace (e' + 1074 + n1) with (e' + n1 + 1074) in Ht by lia. fold m1 in Ht. lia. }
  assert (Hm2v : m2 * 2 ^ (e' + n1 + 1074) <= 2 ^ 1074).
  { pose proof (@below_power_step m1 (e' + n1 + 1074) 1074 ltac:(lia) Hm1v).
    destruct Hm2 as [-> | ->]; lia. }
  assert (Hm2p : 0 <= m2) by lia.
  set (n3 := dropped m2 (e' + n1)) in *.
  assert (Hn3 : 0 <= n3) by (unfold n3, dropped; lia).
  assert (Hdm2 : Zdigits2 m2 <= - (e' + n1) + 1).
  { replace (- (e' + n1) + 1) with (1074 - (e' + n1 + 1074) + 1) by lia.
    apply below_power_digits; lia. }
  assert (He3 : -1074 <= e' + n1 + n3 <= 0).
  { unfold n3, dropped. rewrite fexp_eq. lia. }
  pose proof (@trunc_scaled m2 n3 (e' + n1 + 1074) Hm2p Hn3 ltac:(lia)) as Ht3.
  replace (e' + n1 + 1074 + n3) with (e' + n1 + n3 + 1074) in Ht3 by lia.
  assert (Hm3 : 0 <= m2 / 2 ^ n3) by (apply Z.div_pos; [lia | apply Z.pow_pos_nonneg; lia]).
  destruct (m2 / 2 ^ n3) as [ | m3 | m3] eqn:E3; try lia.
  - cbn [SF2Z]. apply Z.pow_nonneg. lia.
  - destruct (Z.leb_spec (e' + n1 + n3) 971); [|lia].
    cbn [SF2Z cond_Zopp]. lia.
Qed.

(** Rounding a normal value that is at least one gives at least one. *)
Lemma round_ge_one (q e' : Z) (l : location) :
  2 ^ 52 <= q < 2 ^ 54 -> -53 <= e' -> (e' = -53 -> 2 ^ 53 <= q) ->
  let r := binary_round_aux prec emax false q e' l in
  is_nan_sf r = false /\ 2 ^ 1074 <= SF2Z r.
Proof.
  intros Hq He He53. cbv zeta.
  assert (Hq0 : 0 <= q) by lia.
  split; [exact (signed_as_not_nan _ _ (binary_round_aux_sign false e' l Hq0))|].
  destruct (binary_round_aux_eq false e' l Hq0) as (m2 & Hm2 & ->). cbv zeta in *.
  (* first truncation: the mantissa is brought back to 53 digits *)
  assert (H1 : exists n1, dropped q e' = n1 /\ 0 <= n1 <= 1
               /\ 2 ^ 52 <= q / 2 ^ n1 < 2 ^ 53 /\ -52 <= e' + n1).
  { destruct (Z_lt_le_dec q (2 ^ 53)) as [Hlt | Hge].
    - exists 0. unfold dropped. rewrite (@Zdigits2_eq q 53) by (cbn; lia).
      rewrite fexp_eq, Z.pow_0_r, Z.div_1_r. lia.
    - exists 1. unfold dropped. rewrite (@Zdigits2_eq q 54) by (cbn; lia).
      rewrite fexp_eq. change (2 ^ 1) with 2.
      repeat split; try lia.
      + apply Z.div_le_lower_bound; lia.
      + apply Z.div_lt_upper_bound; lia. }
  destruct H1 as (n1 & Hd1 & Hn1 & Hm1 & He1). rewrite Hd1 in *. clear Hd1.
  set (m1 := q / 2 ^ n1) in *. set (e1 := e' + n1) in *. clearbody m1 e1.
  (* second truncation: renormalisation after a carry *)
  assert (H3 : exists n3, dropped m2 e1 = n3 /\ 0 <= n3
               /\ 2 ^ 52 <= m2 / 2 ^ n3 < 2 ^ 53).
  { destruct (Z_lt_le_dec m2 (2 ^ 53)) as [Hlt | Hge].
    - exists 0. unfold dropped. rewrite (@Zdigits2_eq m2 53) by (cbn; lia).
      rewrite fexp_eq, Z.pow_0_r, Z.div_1_r. lia.
    - assert (m2 = 2 ^ 53) as -> by lia.
      exists 1. unfold dropped. rewrite (@Zdigits2_eq (2 ^ 53) 54) by (cbn; lia).
      rewrite fexp_eq. change (2 ^ 53 / 2 ^ 1) with (2 ^ 52). lia. }
  destruct H3 as (n3 & Hd3 & Hn3 & Hm3). rewrite Hd3 in *. clear Hd3.
  assert (Hone : 2 ^ 1074 = 2 ^ 52 * 2 ^ 1022) by (rewrite <- Z.pow_add_r by lia; reflexivity).
  destruct (m2 / 2 ^ n3) as [ | m3 | m3] eqn:E3; try lia.
  destruct (Z.leb_spec (e1 + n3) 971).
  - cbn [SF2Z cond_Zopp].
    assert (2 ^ 1022 <= 2 ^ (e1 + n3 + 1074)) by (apply Z.pow_le_mono_r; lia).
    assert (0 < 2 ^ 1022) by (apply Z.pow_pos_nonneg; lia).
    rewrite Hone. generalize dependent (2 ^ 1022). generalize dependent (2 ^ (e1 + n3 + 1074)).
    intros. nia.
  - cbn [SF2Z cond_Zopp]. unfold beyond. apply Z.pow_le_mono_r; lia.
Qed.

Lemma SFdiv_3_6_lt (ma : positive) (ea : Z) :
  bounded prec emax ma ea = true ->
  Zpos ma * 2 ^ (ea + 1074) < SF2Z sf_3_6 ->
  let r := SFdiv prec emax (S754_finite false ma ea) sf_3_6 in
  is_nan_sf r = false /\ SF2Z r <= 2 ^ 1074.
Proof.
  intros Hb Hlt. cbv zeta. unfold sf_3_6 in *. cbn [SF2Z cond_Zopp] in Hlt.
  change (-51 + 1074) with 1023 in Hlt.
  pose proof (bounded_inv _ _ Hb) as (He & Hm & Hnorm).
  assert (H1024 : 2 ^ 1024 = 2 * 2 ^ 1023) by (rewrite <- Z.pow_succ_r by lia; reflexivity).
  assert (H1074 : 2 ^ 1074 = 2 ^ 1023 * 2 ^ 51) by (rewrite <- Z.pow_add_r by lia; reflexivity).
  assert (HP : 0 < 2 ^ 1023) by (apply Z.pow_pos_nonneg; lia).
  assert (Hea : ea <= -51).
  { destruct (Z_le_gt_dec ea (-51)) as [|Hgt]; [assumption|exfalso].
    assert (2 ^ 1024 <= 2 ^ (ea + 1074)) by (apply Z.pow_le_mono_r; lia).
    specialize (Hnorm ltac:(lia)). change (2 ^ 52) with 4503599627370496 in Hnorm.
    rewrite H1024 in *. set (P := 2 ^ 1023) in *. set (Q := 2 ^ (ea + 1074)) in *.
    clearbody P Q. nia. }
  cbn [SFdiv xorb].
  destruct (SFdiv_core_eq ma 8106479329266893 ea (-51)) as [l Hcore].
  cbv zeta in Hcore. rewrite Hcore. clear Hcore.
  set (e' := Z.min _ _).
  assert (He' : -1074 <= e' <= 0) by (unfold e'; rewrite fexp_eq; lia).
  set (s := ea - -51 - e').
  assert (Hs : 0 <= s) by (unfold s, e'; lia).
  set (q := Zpos ma * 2 ^ s / 8106479329266893).
  assert (Hq0 : 0 <= q).
  { apply Z.div_pos; [|lia]. assert (0 < 2 ^ s) by (apply Z.pow_pos_nonneg; lia). lia. }
  apply round_le_one; try assumption.
  pose proof (Z.mul_div_le (Zpos ma * 2 ^ s) 8106479329266893 ltac:(lia)) as Hq.
  fold q in Hq.
  assert (Hpow : 2 ^ s * 2 ^ (e' + 1074) = 2 ^ (ea + 1074) * 2 ^ 51).
  { rewrite <- !Z.pow_add_r by lia. f_equal. unfold s. lia. }
  assert (0 < 2 ^ (e' + 1074)) by (apply Z.pow_pos_nonneg; lia).
  rewrite H1074.
  set (A := 2 ^ s) in *. set (B := 2 ^ (e' + 1074)) in *.
  set (C := 2 ^ (ea + 1074)) in *. set (P := 2 ^ 1023) in *. set (D := 2 ^ 51) in *.
  assert (0 < D) by (apply Z.pow_pos_nonneg; lia).
  clearbody A B C P D q.
  assert (H8 : 8106479329266893 * (q * B) < 8106479329266893 * (P * D)).
  { assert (8106479329266893 * q * B <= Zpos ma * A * B) by (apply Z.mul_le_mono_nonneg_r; lia).
    assert (Zpos ma * A * B = Zpos ma * C * D) by (rewrite <- !Z.mul_assoc, Hpow; reflexivity).
    assert (Zpos ma * C * D < 8106479329266893 * P * D) by (apply Z.mul_lt_mono_pos_r; lia).
    lia. }
  lia.
Qed.

Lemma SFdiv_3_6_gt (ma : positive) (ea : Z) :
  bounded prec emax ma ea = true ->
  SF2Z sf_3_6 < Zpos ma * 2 ^ (ea + 1074) ->
  let r := SFdiv prec emax (S754_finite false ma ea) sf_3_6 in
  is_nan_sf r = false /\ 2 ^ 1074 <= SF2Z r.
Proof.
  intros Hb Hgt. cbv zeta. unfold sf_3_6 in *. cbn [SF2Z cond_Zopp] in Hgt.
  change (-51 + 1074) with 1023 in Hgt.
  pose proof (bounded_inv _ _ Hb) as (He & Hm & Hnorm).
  assert (H1023 : 2 ^ 1023 = 2 * 2 ^ 1022) by (rewrite <- Z.pow_succ_r by lia; reflexivity).
  assert (HP : 0 < 2 ^ 1022) by (apply Z.pow_pos_nonneg; lia).
  assert (Hea : -51 <= ea).
  { destruct (Z_le_gt_dec (-51) ea) as [|Hlt]; [assumption|exfalso].
    assert (2 ^ (ea + 1074) <= 2 ^ 1022) by (apply Z.pow_le_mono_r; lia).
    assert (0 < 2 ^ (ea + 1074)) by (apply Z.pow_pos_nonneg; lia).
    change (2 ^ 53) with 9007199254740992 in Hm.
    rewrite H1023 in *. set (P := 2 ^ 1022) in *. set (Q := 2 ^ (ea + 1074)) in *.
    clearbody P Q. nia. }
  specialize (Hnorm ltac:(lia)).
  assert (Hd : Zpos (digits2_pos ma) = 53).
  { pose proof (@digits2_pos_le ma 53 ltac:(lia) Hm).
    pose proof (@digits2_pos_ge ma 52 Hnorm). lia. }
  cbn [SFdiv xorb].
  destruct (SFdiv_core_eq ma 8106479329266893 ea (-51)) as [l Hcore].
  cbv zeta in Hcore. rewrite Hcore. clear Hcore.
  rewrite Hd. change (Zpos (digits2_pos 8106479329266893)) with 53.
  replace (Z.min (fexp prec emax (53 + ea - (53 + -51))) (ea - -51)) with (ea - 2)
    by (rewrite fexp_eq; lia).
  replace (ea - -51 - (ea - 2)) with 53 by lia.
  change (2 ^ 53) with 9007199254740992 in *.
  change (2 ^ 52) with 4503599627370496 in *.
  apply round_ge_one.
  - change (2 ^ 52) with 4503599627370496. change (2 ^ 54) with 18014398509481984.
    split.
    + apply Z.div_le_lower_bound; lia.
    + apply Z.div_lt_upper_bound; lia.
  - lia.
  - intros E. assert (ea = -51) as -> by lia.
    change (-51 + 1074) with 1023 in Hgt.
    assert (0 < 2 ^ 1023) by (apply Z.pow_pos_nonneg; lia).
    assert (8106479329266893 < Zpos ma) by (apply (Z.mul_lt_mono_pos_r (2 ^ 1023)); assumption).
    change (2 ^ 53) with 9007199254740992.
    apply Z.div_le_lower_bound; lia.
Qed.

End Division.


Lemma F2Z_one : F2Z 1 = (2 ^ 1074)%Z.
Proof.
  unfold F2Z. change (Prim2SF 1) with (S754_finite false 4503599627370496 (-52)).
  cbn [SF2Z cond_Zopp]. change (Zpos 4503599627370496) with (2 ^ 52)%Z.
  rewrite <- Z.pow_add_r by lia. reflexivity.
Qed.

Lemma F2Z_3_6 : F2Z 3.6 = SF2Z sf_3_6.
Proof. reflexivity. Qed.

Lemma sf_3_6_magnitude : (0 < SF2Z sf_3_6 < beyond)%Z.
Proof. apply (@finite_magnitude 8106479329266893 (-51)). reflexivity. Qed.

(** A positive value that is not infinite is a finite value with sign bit
    [false]. *)
Lemma positive_shape (x : double) :
  (0 < F2Z x < beyond)%Z ->
  exists m e, Prim2SF x = S754_finite false m e
              /\ bounded prec emax m e = true
              /\ F2Z x = (Zpos m * 2 ^ (e + 1074))%Z.
Proof.
  unfold F2Z. pose proof (Prim2SF_valid x) as Hv.
  destruct (Prim2SF x) as [s | s | | s m e]; cbn [SF2Z]; try lia.
  - destruct s; cbn [cond_Zopp]; lia.
  - cbn [valid_binary] in Hv. pose proof (finite_magnitude _ _ Hv).
    destruct s; cbn [cond_Zopp]; [lia|]. intros _. exists m, e. auto.
Qed.

(** Two positive finite values with the same reading are the same value. *)
Lemma finite_reading_inj (m1 m2 : positive) (e1 e2 : Z) :
  bounded prec emax m1 e1 = true -> bounded prec emax m2 e2 = true ->
  (Zpos m1 * 2 ^ (e1 + 1074) = Zpos m2 * 2 ^ (e2 + 1074))%Z ->
  m1 = m2 /\ e1 = e2.
Proof.
  intros H1 H2 Heq. pose proof (finite_compare _ _ _ _ H1 H2) as Hc.
  rewrite Heq, Z.compare_refl in Hc.
  destruct (Z.compare_spec e1 e2) as [He | He | He]; try discriminate.
  split; [|assumption]. apply Pos.compare_eq. exact Hc.
Qed.

Lemma div_3_6_small (x : double) :
  (0 <? x) = true -> (x <=? 3.6) = true ->
  is_nan (x / 3.6) = false /\ (x / 3.6 <=? 1) = true.
Proof.
  intros H0 H36.
  apply ltb_true_inv in H0 as (_ & Nx & H0).
  apply leb_true_inv in H36 as (_ & _ & H36).
  change (F2Z 0) with 0%Z in H0. rewrite F2Z_3_6 in H36.
  pose proof sf_3_6_magnitude as Hc.
  destruct (@positive_shape x ltac:(lia)) as (m & e & Hx & Hb & Hv).
  assert (Hgoal : is_nan_sf (Prim2SF (x / 3.6)) = false
                  /\ (F2Z (x / 3.6) <= 2 ^ 1074)%Z).
  { unfold F2Z. rewrite div_spec, Hx. change (Prim2SF 3.6) with sf_3_6.
    destruct (Z_lt_le_dec (F2Z x) (SF2Z sf_3_6)) as [Hlt | Hge].
    - apply SFdiv_3_6_lt; [assumption | rewrite <- Hv; assumption].
    - assert (Heq : (Zpos m * 2 ^ (e + 1074) = Zpos 8106479329266893 * 2 ^ (-51 + 1074))%Z).
      { rewrite <- Hv. unfold sf_3_6 in *. cbn [SF2Z cond_Zopp] in *. lia. }
      apply finite_reading_inj in Heq as [-> ->]; [|assumption|reflexivity].
      change (SF64div (S754_finite false 8106479329266893 (-51)) sf_3_6)
        with (S754_finite false 4503599627370496 (-52)).
      split; [reflexivity|]. rewrite <- F2Z_one. unfold F2Z. 
      change (Prim2SF 1) with (S754_finite false 4503599627370496 (-52)). lia. }
  destruct Hgoal as [Hn Hle]. rewrite is_nan_spec. split; [assumption|].
  apply leb_intro; [rewrite is_nan_spec; assumption | reflexivity |].
  rewrite F2Z_one. exact Hle.
Qed.

Lemma div_3_6_large (x : double) :
  (3.6 <? x) = true ->
  is_nan (x / 3.6) = false /\ (1 <=? x / 3.6) = true.
Proof.
  intros H36. apply ltb_true_inv in H36 as (_ & Nx & H36).
  rewrite F2Z_3_6 in H36. pose proof sf_3_6_magnitude as Hc.
  assert (Hgoal : is_nan_sf (Prim2SF (x / 3.6)) = false
                  /\ (2 ^ 1074 <= F2Z (x / 3.6))%Z).
  { unfold F2Z in *. rewrite div_spec. change (Prim2SF 3.6) with sf_3_6.
    rewrite is_nan_spec in Nx. pose proof (Prim2SF_valid x) as Hv.
    destruct (Prim2SF x) as [s | s | | s m e]; cbn [SF2Z] in H36; try lia; try discriminate.
    - destruct s; cbn [cond_Zopp] in H36; [lia|].
      unfold SF64div, sf_3_6. cbn [SFdiv xorb is_nan_sf SF2Z cond_Zopp].
      split; [reflexivity|]. unfold beyond. apply Z.pow_le_mono_r; lia.
    - cbn [valid_binary] in Hv. pose proof (finite_magnitude _ _ Hv).
      destruct s; cbn [cond_Zopp] in H36; [lia|].
      apply SFdiv_3_6_gt; assumption. }
  destruct Hgoal as [Hn Hle]. rewrite is_nan_spec. split; [assumption|].
  apply leb_intro; [reflexivity | rewrite is_nan_spec; assumption |].
  rewrite F2Z_one. exact Hle.
Qed.

(** Two values that are not NaN, with the same non-zero reading, are equal. *)
Lemma F2Z_inj_one (x : double) :
  is_nan x = false -> F2Z x = F2Z 1 -> x = 1.
Proof.
  intros Nx Heq. rewrite F2Z_one in Heq.
  assert (Hb : (0 < 2 ^ 1074 < beyond)%Z).
  { split; [apply Z.pow_pos_nonneg; lia | unfold beyond; apply Z.pow_lt_mono_r; lia]. }
  destruct (@positive_shape x ltac:(lia)) as (m & e & Hx & Hbd & Hv).
  apply Prim2SF_inj. rewrite Hx.
  change (Prim2SF 1) with (S754_finite false 4503599627370496 (-52)).
  assert (Hr : (Zpos m * 2 ^ (e + 1074) = Zpos 4503599627370496 * 2 ^ (-52 + 1074))%Z).
  { rewrite <- Hv, Heq. change (Zpos 4503599627370496) with (2 ^ 52)%Z.
    rewrite <- Z.pow_add_r by lia. reflexivity. }
  apply finite_reading_inj in Hr as [-> ->]; [reflexivity | assumption | reflexivity].
Qed.


Section Underflow.

Local Open Scope Z_scope.

Lemma Zdigits2_lower (m : Z) : 1 <= m -> 2 ^ (Zdigits2 m - 1) <= m.
Proof.
  destruct m as [ | p | p]; try lia. intros _. cbn [Zdigits2].
  apply digits2_pos_bounds.
Qed.

Lemma trunc_positive (m e : Z) :
  1 <= m -> -1074 <= e -> 1 <= m / 2 ^ dropped m e.
Proof.
  intros Hm He. unfold dropped. rewrite fexp_eq.
  pose proof (Zdigits2_lower Hm) as Hd.
  destruct (Z_le_gt_dec (Zdigits2 m) 53) as [Hle | Hgt].
  - rewrite Z.max_l by lia. rewrite Z.pow_0_r, Z.div_1_r. exact Hm.
  - replace (Z.max 0 (Z.max (Zdigits2 m + e - 53) (-1074) - e)) with (Zdigits2 m - 53) by lia.
    assert (0 < 2 ^ (Zdigits2 m - 53)) by (apply Z.pow_pos_nonneg; lia).
    apply Z.div_le_lower_bound; [assumption|].
    apply Z.le_trans with (2 := Hd). rewrite Z.mul_1_r.
    apply Z.pow_le_mono_r; lia.
Qed.

(** Rounding a value of at least one unit in the last place of the format
    does not give zero. *)
Lemma round_positive (q e' : Z) (l : location) :
  1 <= q -> -1074 <= e' ->
  0 < SF2Z (binary_round_aux prec emax false q e' l).
Proof.
  intros Hq He.
  destruct (@binary_round_aux_eq false q e' l ltac:(lia)) as (m2 & Hm2 & ->).
  cbv zeta in *.
  pose proof (trunc_positive Hq He) as H1.
  assert (Hn1 : 0 <= dropped q e') by (unfold dropped; lia).
  assert (H2 : 1 <= m2) by lia.
  pose proof (@trunc_positive m2 (e' + dropped q e') H2 ltac:(lia)) as H3.
  assert (Hn3 : 0 <= dropped m2 (e' + dropped q e')) by (unfold dropped; lia).
  destruct (m2 / 2 ^ dropped m2 (e' + dropped q e')) as [ | m3 | m3]; try lia.
  destruct (_ <=? 971); cbn [SF2Z cond_Zopp].
  - assert (0 < 2 ^ (e' + dropped q e' + dropped m2 (e' + dropped q e') + 1074))
      by (apply Z.pow_pos_nonneg; lia).
    lia.
  - apply Z.pow_pos_nonneg; lia.
Qed.


End Underflow.



Lemma numeric_inv (r : Region.t) :
  numeric r = true ->
  is_nan (Region.waterLevel r) = false /\
  is_nan (Region.waterNeed r) = false /\
  is_nan (Region.waterCapacity r) = false.
Proof.
  unfold numeric. intros H.
  apply andb_prop in H as [H H3]. apply andb_prop in H as [H1 H2].
  repeat split; apply negb_true_iff; assumption.
Qed.

Lemma std_max_not_nan (a b : double) :
  is_nan a = false -> is_nan b = false -> is_nan (std_max a b) = false.
Proof. unfold std_max. destruct (a <? b); auto. Qed.

Lemma std_max_F2Z (a b : double) :
  is_nan a = false -> is_nan b = false ->
  F2Z (std_max a b) = Z.max (F2Z a) (F2Z b).
Proof.
  intros Na Nb. unfold std_max. rewrite ltb_F2Z by assumption.
  destruct (Z.ltb_spec (F2Z a) (F2Z b)); lia.
Qed.

Lemma keepLevel_not_nan (r : Region.t) :
  numeric r = true -> is_nan (keepLevel r) = false.
Proof.
  intros H. apply numeric_inv in H as (_ & Hn & Hc). unfold keepLevel.
  apply std_max_not_nan; [apply std_max_not_nan|]; try assumption;
    apply mul_const_not_nan_l; auto.
Qed.

Lemma nonneg_of_signed (x : double) :
  signed_as false (Prim2SF x) -> (0 <=? x) = true.
Proof.
  intros Hs. apply signed_as_false_nonneg in Hs as [Nx Hx].
  apply leb_intro; [reflexivity | assumption | exact Hx].
Qed.

(** The first test of [computeSafeSurplus] is subsumed by the second. *)
Lemma below_floor_below_keep (r : Region.t) :
  let minLevel := std_max (0.8 * Region.waterNeed r) (0.3 * Region.waterCapacity r) in
  (Region.waterLevel r <=? minLevel) = true ->
  (Region.waterLevel r <=? keepLevel r) = true.
Proof.
  cbv zeta. unfold keepLevel.
  set (minLevel := std_max _ _). intros H.
  unfold std_max at 1. destruct (minLevel <? Region.waterNeed r) eqn:E; [|exact H].
  apply leb_true_inv in H as (Nl & Nm & Hl).
  apply ltb_true_inv in E as (_ & Nn & Hn).
  apply leb_intro; try assumption. lia.
Qed.

Lemma computeSafeSurplus_unfold (r : Region.t) :
  computeSafeSurplus (Some r) =
    if Region.waterLevel r <=? keepLevel r then 0
    else Region.waterLevel r - keepLevel r.
Proof.
  pose proof (below_floor_below_keep r) as Hb. cbv zeta in Hb.
  unfold computeSafeSurplus. fold (keepLevel r).
  destruct (Region.waterLevel r <=? std_max _ _) eqn:E.
  - rewrite Hb by reflexivity. reflexivity.
  - reflexivity.
Qed.

(** C3.  The safe surplus of a region is zero when its level is at or below
    the keep level [max (max (0.8 * need) (0.3 * capacity)) need], and is
    [level - keepLevel] otherwise; it is never negative for a region of the
    data model (spec §3), whose numbers can be compared; a null region has
    surplus zero. *)
Theorem computeSafeSurplus_spec (r : Region.t) :
  computeSafeSurplus None = 0
  /\ ((Region.waterLevel r <=? keepLevel r) = true ->
      computeSafeSurplus (Some r) = 0)
  /\ ((Region.waterLevel r <=? keepLevel r) = false ->
      computeSafeSurplus (Some r) = Region.waterLevel r - keepLevel r)
  /\ (numeric r = true -> (0 <=? computeSafeSurplus (Some r)) = true).
Proof.
  rewrite computeSafeSurplus_unfold.
  split; [reflexivity|]. split; [intros ->; reflexivity|].
  split; [intros ->; reflexivity|].
  intros Hnum. pose proof (keepLevel_not_nan r Hnum) as Nk.
  apply numeric_inv in Hnum as (Nl & _ & _).
  destruct (Region.waterLevel r <=? keepLevel r) eqn:E; [reflexivity|].
  apply nonneg_of_signed, sub_pos; try assumption.
  apply leb_false_inv; assumption.
Qed.

Lemma computeSafeSurplus_spec_witness :
  computeSafeSurplus (Some sampleNorth) = 40
  /\ (0 <=? computeSafeSurplus (Some sampleNorth)) = true.
Proof.
  destruct (computeSafeSurplus_spec sampleNorth) as (_ & _ & Hgt & Hnn).
  split.
  - rewrite Hgt; reflexivity.
  - apply Hnn. reflexivity.
Defined.

(** C4.  The deficit of a region is zero when its level is at least its need,
    and is [need - level] otherwise; it is never negative for a region of the
    data model (spec §3), whose numbers can be compared; a null region has
    deficit zero. *)
Theorem computeDeficit_spec (r : Region.t) :
  computeDeficit None = 0
  /\ ((Region.waterNeed r <=? Region.waterLevel r) = true ->
      computeDeficit (Some r) = 0)
  /\ ((Region.waterNeed r <=? Region.waterLevel r) = false ->
      computeDeficit (Some r) = Region.waterNeed r - Region.waterLevel r)
  /\ (numeric r = true -> (0 <=? computeDeficit (Some r)) = true).
Proof.
  unfold computeDeficit.
  split; [reflexivity|]. split; [intros ->; reflexivity|].
  split; [intros ->; reflexivity|].
  intros Hnum. apply numeric_inv in Hnum as (Nl & Nn & _).
  destruct (Region.waterNeed r <=? Region.waterLevel r) eqn:E; [reflexivity|].
  apply nonneg_of_signed, sub_pos; try assumption.
  apply leb_false_inv; assumption.
Qed.

Lemma computeDeficit_spec_witness :
  computeDeficit (Some sampleSouth) = 70
  /\ (0 <=? computeDeficit (Some sampleSouth)) = true.
Proof.
  destruct (computeDeficit_spec sampleSouth) as (_ & _ & Hlt & Hnn).
  split.
  - rewrite Hlt; reflexivity.
  - apply Hnn. reflexivity.
Defined.

Lemma computeSafeSurplus_signed (r : Region.t) :
  numeric r = true -> signed_as false (Prim2SF (computeSafeSurplus (Some r))).
Proof.
  intros Hnum. pose proof (keepLevel_not_nan r Hnum) as Nk.
  apply numeric_inv in Hnum as (Nl & _ & _).
  rewrite computeSafeSurplus_unfold.
  destruct (Region.waterLevel r <=? keepLevel r) eqn:E; [reflexivity|].
  apply sub_pos; try assumption. apply leb_false_inv; assumption.
Qed.

Lemma computeDeficit_signed (r : Region.t) :
  numeric r = true -> signed_as false (Prim2SF (computeDeficit (Some r))).
Proof.
  intros Hnum. apply numeric_inv in Hnum as (Nl & Nn & _).
  unfold computeDeficit.
  destruct (Region.waterNeed r <=? Region.waterLevel r) eqn:E; [reflexivity|].
  apply sub_pos; try assumption. apply leb_false_inv; assumption.
Qed.

Lemma keepLevel_ge_need (r : Region.t) :
  numeric r = true -> (F2Z (Region.waterNeed r) <= F2Z (keepLevel r))%Z.
Proof.
  intros H. apply numeric_inv in H as (_ & Hn & Hc). unfold keepLevel.
  rewrite std_max_F2Z; [lia | | assumption].
  apply std_max_not_nan; apply mul_const_not_nan_l; auto.
Qed.

(** C9.  For a region of the data model (spec §3), whose numbers can be
    compared, the safe surplus and the deficit are never both positive: the
    smaller of the two is [0.0]. *)
Theorem surplus_deficit_exclusive (r : Region.t) :
  numeric r = true ->
  std_min (computeSafeSurplus (Some r)) (computeDeficit (Some r)) = 0
  /\ ((0 <? computeSafeSurplus (Some r)) && (0 <? computeDeficit (Some r)) = false).
Proof.
  intros Hnum.
  pose proof (computeSafeSurplus_signed r Hnum) as Hs.
  pose proof (computeDeficit_signed r Hnum) as Hd.
  pose proof (keepLevel_ge_need r Hnum) as Hk.
  pose proof (keepLevel_not_nan r Hnum) as Nk.
  destruct (signed_as_false_nonneg _ Hs) as [Ns Hs0].
  destruct (signed_as_false_nonneg _ Hd) as [Nd Hd0].
  apply numeric_inv in Hnum as (Nl & Nn & _).
  assert (Hcase :
    computeDeficit (Some r) = 0 \/ computeSafeSurplus (Some r) = 0).
  { rewrite computeSafeSurplus_unfold. unfold computeDeficit.
    destruct (Region.waterNeed r <=? Region.waterLevel r) eqn:E; [left; reflexivity|].
    right. apply leb_false_inv in E; try assumption.
    rewrite (@leb_intro (Region.waterLevel r) (keepLevel r)); auto. lia. }
  unfold std_min. destruct Hcase as [Hz | Hz].
  - rewrite Hz in *. split.
    + destruct (0 <? computeSafeSurplus (Some r)) eqn:E; [reflexivity|].
      apply signed_as_false_zero; [assumption|].
      apply ltb_false_inv in E; auto.
    + change (0 <? 0) with false. apply andb_false_r.
  - rewrite Hz in *. split.
    + destruct (computeDeficit (Some r) <? 0) eqn:E; [|reflexivity].
      apply ltb_true_inv in E as (_ & _ & E). change (F2Z 0) with 0%Z in E. lia.
    + reflexivity.
Qed.

Lemma surplus_deficit_exclusive_witness :
  std_min (computeSafeSurplus (Some sampleNorth)) (computeDeficit (Some sampleNorth)) = 0
  /\ std_min (computeSafeSurplus (Some sampleSouth)) (computeDeficit (Some sampleSouth)) = 0.
Proof.
  split.
  - apply (surplus_deficit_exclusive sampleNorth). reflexivity.
  - apply (surplus_deficit_exclusive sampleSouth). reflexivity.
Defined.

(** ** The pairwise evaluator *)

Lemma SFmul_comm (a b : spec_float) : SFmul prec emax a b = SFmul prec emax b a.
Proof.
  destruct a as [sa | sa | | sa ma ea], b as [sb | sb | | sb mb eb];
    cbn [SFmul]; try reflexivity; try (rewrite xorb_comm; reflexivity).
  rewrite xorb_comm, Pos.mul_comm, Z.add_comm. reflexivity.
Qed.

Lemma mul_comm (x y : double) : x * y = y * x.
Proof. apply Prim2SF_inj. rewrite !mul_spec. apply SFmul_comm. Qed.

Lemma with_canals_id (m : AcequiaManager) : with_canals (canals m) m = m.
Proof. destruct m; reflexivity. Qed.

Lemma tryTransfer_decision (src dst canal : ptr) (m : AcequiaManager) :
  tryTransfer src dst canal m
  = with_canals (applyDecision canal (decision (regions m) src dst) (canals m)) m.
Proof.
  unfold tryTransfer, decision, applyDecision.
  destruct src, dst; try (destruct canal); try (symmetry; apply with_canals_id).
  - destruct (_ || _); [symmetry; apply with_canals_id|].
    destruct (deref (regions m) (Some n0)); [|symmetry; apply with_canals_id].
    destruct (_ <=? 0); [symmetry; apply with_canals_id|].
    destruct (_ <=? 0); [symmetry; apply with_canals_id|]. reflexivity.
  - destruct (_ || _); [symmetry; apply with_canals_id|].
    destruct (deref (regions m) (Some n0)); [|symmetry; apply with_canals_id].
    destruct (_ <=? 0); [symmetry; apply with_canals_id|].
    destruct (_ <=? 0); [symmetry; apply with_canals_id|].
    cbn [scheduleTransfer]. symmetry; apply with_canals_id.
Qed.

Lemma F2Z_le_beyond (x : double) : (F2Z x <= beyond)%Z.
Proof.
  assert (0 < beyond)%Z by (apply Z.pow_pos_nonneg; lia).
  unfold F2Z. pose proof (Prim2SF_valid x) as Hv.
  destruct (Prim2SF x) as [s | s | | s m e]; cbn [SF2Z]; try lia.
  - destruct s; cbn [cond_Zopp]; lia.
  - cbn [valid_binary] in Hv. pose proof (finite_magnitude _ _ Hv).
    destruct s; cbn [cond_Zopp]; lia.
Qed.

(** A level that is not negative is finite, or is the positive infinity. *)
Lemma nonneg_finite_or_top (x : double) :
  (0 <=? x) = true -> is_finite x = true \/ F2Z x = beyond.
Proof.
  intros H. apply leb_true_inv in H as (_ & Nx & H).
  assert (0 < beyond)%Z by (apply Z.pow_pos_nonneg; lia).
  rewrite is_finite_spec. rewrite is_nan_spec in Nx. unfold F2Z in *.
  change (SF2Z (Prim2SF 0)) with 0%Z in H.
  destruct (Prim2SF x) as [s | s | | s m e]; cbn [is_finite_sf SF2Z] in *;
    try discriminate; auto.
  destruct s; cbn [cond_Zopp] in *; [lia | auto].
Qed.

Lemma std_min3_le (a b c : double) :
  is_nan a = false -> is_nan b = false -> is_nan c = false ->
  (std_min3 a b c <=? a) = true
  /\ (std_min3 a b c <=? b) = true
  /\ (std_min3 a b c <=? c) = true.
Proof.
  intros Na Nb Nc. unfold std_min3.
  destruct (b <? a) eqn:Eba.
  - apply ltb_true_inv in Eba as (_ & _ & Hba).
    destruct (c <? b) eqn:Ecb.
    + apply ltb_true_inv in Ecb as (_ & _ & Hcb).
      repeat split; apply leb_intro; auto; lia.
    + apply ltb_false_inv in Ecb; auto.
      repeat split; apply leb_intro; auto; lia.
  - apply ltb_false_inv in Eba; auto.
    destruct (c <? a) eqn:Eca.
    + apply ltb_true_inv in Eca as (_ & _ & Hca).
      repeat split; apply leb_intro; auto; lia.
    + apply ltb_false_inv in Eca; auto.
      repeat split; apply leb_intro; auto; lia.
Qed.

(** C2.  For a source and a destination of the data model (spec §3: the
    numbers can be compared and the level is not negative), the amount that
    [tryTransfer] hands to [scheduleTransfer] exceeds none of the
    destination's deficit, the source's safe surplus and
    [0.8 * (capacity - level)] of the destination; and [tryTransfer] hands
    over nothing, leaving the manager as it is, whenever the destination's
    level is at or above its capacity, or the deficit or the surplus is zero
    or negative. *)
Theorem tryTransfer_bounds (m : AcequiaManager) (src dst canal : ptr)
    (s d : Region.t) :
  deref (regions m) src = Some s ->
  deref (regions m) dst = Some d ->
  numeric s = true -> numeric d = true ->
  (0 <=? Region.waterLevel d) = true ->
  tryTransfer src dst canal m
    = with_canals (applyDecision canal (decision (regions m) src dst) (canals m)) m
  /\ (forall amount,
        decision (regions m) src dst = Some amount ->
        (amount <=? computeDeficit (Some d)) = true
        /\ (amount <=? computeSafeSurplus (Some s)) = true
        /\ (amount <=? 0.8 * (Region.waterCapacity d - Region.waterLevel d)) = true)
  /\ ((Region.waterCapacity d <=? Region.waterLevel d) = true
      \/ (computeDeficit (Some d) <=? 0) = true
      \/ (computeSafeSurplus (Some s) <=? 0) = true ->
      decision (regions m) src dst = None
      /\ tryTransfer src dst canal m = m).
Proof.
  intros Hs Hd Ns Nd Hlevel.
  split; [apply tryTransfer_decision|].
  assert (Hnone : decision (regions m) src dst = None ->
                  tryTransfer src dst canal m = m).
  { intros Hn. rewrite tryTransfer_decision, Hn. apply with_canals_id. }
  destruct src as [isrc|]; [|discriminate]. destruct dst as [idst|]; [|discriminate].
  destruct (nonneg_finite_or_top Hlevel) as [Fl | Htop]; cycle 1.
  { (* an infinite level: the destination has no deficit *)
    assert (Hdec : decision (regions m) (Some isrc) (Some idst) = None).
    { apply numeric_inv in Nd as (Nl & Nn & _). unfold decision, computeDeficit.
      rewrite Hd, (@leb_intro (Region.waterNeed d) (Region.waterLevel d)); auto.
      rewrite Htop. apply F2Z_le_beyond. }
    split; [rewrite Hdec; discriminate | intros _; auto]. }
  pose proof (computeSafeSurplus_signed s Ns) as Ss.
  pose proof (computeDeficit_signed d Nd) as Sd.
  apply signed_as_false_nonneg in Ss as [Nsur _].
  apply signed_as_false_nonneg in Sd as [Ndef _].
  apply numeric_inv in Nd as (Nl & _ & Nc).
  destruct (sub_sign (Region.waterCapacity d) (Region.waterLevel d) Nc Nl) as (Nh & Hle & _).
  { rewrite Fl. apply orb_true_r. }
  assert (Nh8 : is_nan ((Region.waterCapacity d - Region.waterLevel d) * 0.8) = false).
  { apply mul_const_not_nan_r; auto. }
  assert (Hdec : decision (regions m) (Some isrc) (Some idst)
                 = let need := computeDeficit (Some d) in
                   let surplus := computeSafeSurplus (Some s) in
                   let maxBeforeFlood := Region.waterCapacity d - Region.waterLevel d in
                   if (need <=? 0) || (surplus <=? 0) then None
                   else if maxBeforeFlood <=? 0 then None
                   else if std_min3 need surplus (maxBeforeFlood * 0.8) <=? 0 then None
                   else Some (std_min3 need surplus (maxBeforeFlood * 0.8))).
  { unfold decision. rewrite Hs, Hd. reflexivity. }
  cbv zeta in Hdec.
  set (need := computeDeficit (Some d)) in *.
  set (surplus := computeSafeSurplus (Some s)) in *.
  set (maxBeforeFlood := Region.waterCapacity d - Region.waterLevel d) in *.
  split.
  - intros amount Ha. rewrite Hdec in Ha.
    destruct ((need <=? 0) || (surplus <=? 0)); [discriminate|].
    destruct (maxBeforeFlood <=? 0); [discriminate|].
    destruct (std_min3 need surplus (maxBeforeFlood * 0.8) <=? 0); [discriminate|].
    injection Ha as <-.
    rewrite (mul_comm 0.8 maxBeforeFlood).
    apply std_min3_le; assumption.
  - intros Hcase.
    assert (Hn : decision (regions m) (Some isrc) (Some idst) = None).
    { rewrite Hdec. destruct Hcase as [Hcap | [Hneed | Hsur]].
      - destruct ((need <=? 0) || (surplus <=? 0)); [reflexivity|].
        apply leb_true_inv in Hcap as (_ & _ & Hcap).
        rewrite (@leb_intro maxBeforeFlood 0); auto.
      - rewrite Hneed. reflexivity.
      - rewrite Hsur, orb_true_r. reflexivity. }
    auto.
Qed.

Lemma tryTransfer_bounds_witness :
  decision (regions sampleManager) (Some 0%nat) (Some 1%nat) = Some 40
  /\ (40 <=? computeDeficit (Some sampleSouth)) = true
  /\ (40 <=? computeSafeSurplus (Some sampleNorth)) = true
  /\ (40 <=? 0.8 * (Region.waterCapacity sampleSouth
                      - Region.waterLevel sampleSouth)) = true.
Proof.
  split; [reflexivity|].
  apply (@tryTransfer_bounds sampleManager (Some 0%nat) (Some 1%nat) (Some 0%nat)
           sampleNorth sampleSouth); reflexivity.
Defined.

(** ** The flow-rate converter *)

Lemma transferRate_small (amount : double) :
  (0 <? amount) = true -> (amount <=? 3.6) = true -> (0 <? amount / 3.6) = true ->
  transferRate amount = Some (amount / 3.6) /\ (amount / 3.6 <=? 1) = true.
Proof.
  intros H0 H36 Hq. destruct (div_3_6_small H0 H36) as [Nq Hle].
  split; [|exact Hle]. unfold transferRate.
  apply ltb_true_inv in H0 as (_ & Na & H0).
  apply ltb_true_inv in Hq as (_ & _ & Hq).
  apply leb_true_inv in Hle as (_ & _ & Hle).
  rewrite (@leb_F2Z amount 0), (@ltb_F2Z 1 (amount / 3.6)) by auto.
  destruct (Z.leb_spec (F2Z amount) (F2Z 0)); [lia|].
  destruct (Z.ltb_spec (F2Z 1) (F2Z (amount / 3.6))); [lia|].
  rewrite (@leb_F2Z (amount / 3.6) 0) by auto.
  destruct (Z.leb_spec (F2Z (amount / 3.6)) (F2Z 0)); [lia|]. reflexivity.
Qed.

Lemma transferRate_large (amount : double) :
  (3.6 <? amount) = true -> transferRate amount = Some 1.
Proof.
  intros H36. destruct (div_3_6_large H36) as [Nq Hge].
  unfold transferRate.
  apply ltb_true_inv in H36 as (_ & Na & H36).
  apply leb_true_inv in Hge as (_ & _ & Hge).
  pose proof sf_3_6_magnitude as Hc. rewrite F2Z_3_6 in H36.
  rewrite (@leb_F2Z amount 0) by auto. change (F2Z 0) with 0%Z.
  destruct (Z.leb_spec (F2Z amount) 0); [lia|].
  destruct (1 <? amount / 3.6) eqn:E; [reflexivity|].
  apply ltb_false_inv in E; auto.
  rewrite (@F2Z_inj_one (amount / 3.6)) by (auto; lia). reflexivity.
Qed.

Lemma transferRate_nonpositive (amount : double) :
  (amount <=? 0) = true -> transferRate amount = None.
Proof. intros H. unfold transferRate. rewrite H. reflexivity. Qed.

Lemma nth_error_update (A : Type) (f : A -> A) (cs : list A) (i j : nat) :
  nth_error (update i f cs) j
  = if Nat.eqb i j then option_map f (nth_error cs j) else nth_error cs j.
Proof.
  revert i j. induction cs as [|c cs IH]; intros [|i] [|j]; cbn; try reflexivity.
  - destruct (Nat.eqb _ _); reflexivity.
  - apply IH.
Qed.




(** ** Canal reset *)

Lemma closeAllCanals_closed (cs : list Canal.t) :
  Forall closed (closeAllCanals cs).
Proof.
  unfold closeAllCanals. apply Forall_map, Forall_forall.
  intros c _. split; reflexivity.
Qed.

(** C8.  Closing all canals twice is the same as closing them once, whatever
    state they were in; after a reset every canal is closed with rate zero,
    and keeps its name. *)
Theorem closeAllCanals_idempotent (cs : list Canal.t) :
  closeAllCanals (closeAllCanals cs) = closeAllCanals cs
  /\ Forall closed (closeAllCanals cs)
  /\ map Canal.name (closeAllCanals cs) = map Canal.name cs.
Proof.
  split; [|split].
  - unfold closeAllCanals. rewrite map_map. reflexivity.
  - apply closeAllCanals_closed.
  - unfold closeAllCanals. rewrite map_map. reflexivity.
Qed.

(** ** Frame of the hourly pass *)

Lemma update_names (i : nat) (f : Canal.t -> Canal.t) (cs : list Canal.t) :
  (forall c, Canal.name (f c) = Canal.name c) ->
  map Canal.name (update i f cs) = map Canal.name cs.
Proof.
  intros Hf. revert i. induction cs as [|c cs IH]; intros [|i]; cbn; try reflexivity.
  - rewrite Hf. reflexivity.
  - rewrite IH. reflexivity.
Qed.

Lemma applyDecision_names (canal : ptr) (a : option double) (cs : list Canal.t) :
  map Canal.name (applyDecision canal a cs) = map Canal.name cs.
Proof.
  unfold applyDecision, scheduleTransfer.
  destruct a as [amount|]; [|reflexivity].
  destruct canal as [i|]; [|reflexivity].
  destruct (transferRate amount); [|reflexivity].
  apply update_names. reflexivity.
Qed.

(** The canals after a pass: the reset, then the four writes, each for a
    decision taken on the regions of the manager the pass started from. *)
Lemma hourlyPass_canals (rr : RegionRoles) (cr : CanalRoles) (m : AcequiaManager) :
  canals (hourlyPass rr cr m)
  = applyDecision (canalD cr) (decision (regions m) (east rr) (north rr))
      (applyDecision (canalB cr) (decision (regions m) (south rr) (east rr))
         (applyDecision (canalC cr) (decision (regions m) (north rr) (east rr))
            (applyDecision (canalA cr) (decision (regions m) (north rr) (south rr))
               (closeAllCanals (canals m))))).
Proof.
  unfold hourlyPass. rewrite !tryTransfer_decision. reflexivity.
Qed.

Lemma hourlyPass_clock (rr : RegionRoles) (cr : CanalRoles) (m : AcequiaManager) :
  isSolved (hourlyPass rr cr m) = isSolved m
  /\ hour (hourlyPass rr cr m) = hour m
  /\ SimulationMax (hourlyPass rr cr m) = SimulationMax m.
Proof.
  unfold hourlyPass. rewrite !tryTransfer_decision. repeat split.
Qed.

Lemma tryTransfer_regions (src dst canal : ptr) (m : AcequiaManager) :
  regions (tryTransfer src dst canal m) = regions m.
Proof. rewrite tryTransfer_decision. reflexivity. Qed.

(** C7.  An hourly pass leaves the regions, the flags and the clock of the
    manager as they were and keeps the names of the canals: it only writes
    flow-rates and gates.  Each single attempt leaves the regions as they
    were, and the four decisions of the pass are all computed from the
    regions as they were when the pass started. *)
Theorem hourlyPass_frame (rr : RegionRoles) (cr : CanalRoles) (m : AcequiaManager) :
  regions (hourlyPass rr cr m) = regions m
  /\ (forall src dst canal m', regions (tryTransfer src dst canal m') = regions m')
  /\ isSolved (hourlyPass rr cr m) = isSolved m
  /\ hour (hourlyPass rr cr m) = hour m
  /\ SimulationMax (hourlyPass rr cr m) = SimulationMax m
  /\ map Canal.name (canals (hourlyPass rr cr m)) = map Canal.name (canals m)
  /\ canals (hourlyPass rr cr m)
     = applyDecision (canalD cr) (decision (regions m) (east rr) (north rr))
         (applyDecision (canalB cr) (decision (regions m) (south rr) (east rr))
            (applyDecision (canalC cr) (decision (regions m) (north rr) (east rr))
               (applyDecision (canalA cr) (decision (regions m) (north rr) (south rr))
                  (closeAllCanals (canals m))))).
Proof.
  destruct (hourlyPass_clock rr cr m) as (Hs & Hh & Hm).
  split; [unfold hourlyPass; rewrite !tryTransfer_regions; reflexivity|].
  split; [intros; apply tryTransfer_regions|].
  repeat (split; [assumption|]).
  split; [|apply hourlyPass_canals].
  rewrite hourlyPass_canals, !applyDecision_names.
  unfold closeAllCanals. rewrite map_map. reflexivity.
Qed.

(** ** The winnability notice and the hourly loop *)



Section Loop.

Variable nexthour : AcequiaManager -> AcequiaManager.

(** What the policy relies on from the engine for the loop to end: an hour
    of simulation advances the clock by one and keeps the hour limit. *)
Hypothesis nexthour_hour : forall m, hour (nexthour m) = (hour m + 1)%Z.
Hypothesis nexthour_max : forall m, SimulationMax (nexthour m) = SimulationMax m.

Lemma hourlyLoop_stops (rr : RegionRoles) (cr : CanalRoles) (fuel : nat)
    (m : AcequiaManager) :
  (hour m <= SimulationMax m)%Z ->
  (SimulationMax m - hour m <= Z.of_nat fuel)%Z ->
  exists m',
    hourlyLoop nexthour fuel rr cr m = Some m'
    /\ (isSolved m' = true \/ hour m' = SimulationMax m').
Proof.
  revert m. induction fuel as [|fuel IH]; intros m Hle Hfuel.
  - assert (hour m = SimulationMax m) as Heq by lia.
    cbn [hourlyLoop]. unfold running. rewrite Heq, Z.eqb_refl, andb_false_r.
    exists m. auto.
  - cbn [hourlyLoop]. unfold running.
    destruct (isSolved m) eqn:Es; cbn [negb andb]; [exists m; auto|].
    destruct (Z.eqb_spec (hour m) (SimulationMax m)) as [Heq | Hne]; cbn [negb].
    + exists m. auto.
    + destruct (hourlyPass_clock rr cr m) as (_ & Hh & Hm).
      apply IH.
      * rewrite nexthour_hour, nexthour_max, Hh, Hm. lia.
      * rewrite nexthour_hour, nexthour_max, Hh, Hm. lia.
Qed.

End Loop.

Section Notice.

Variable nexthour : AcequiaManager -> AcequiaManager.




End Notice.


(** ** One source, two outgoing canals *)

(** C10.  The surplus bound is per canal, not per source.  With North able
    to spare 2 and South and East both lacking 70, the pass opens both canals
    out of North, each for the whole surplus, whatever the rates and gates of
    the canals were before: the scheduled amounts add up to more than the
    surplus of North. *)
Theorem surplus_bound_not_aggregate :
  exists (rs : list Region.t) (surplus : double),
    regions thirstyManager = rs
    /\ computeSafeSurplus (deref rs (north (findRegions rs))) = surplus
    /\ (0 <? surplus) = true
    /\ forall m : AcequiaManager,
         regions m = rs ->
         map Canal.name (canals m) = ["A"; "B"; "C"; "D"]%string ->
         exists aS aE rS rE : double,
           decision (regions m) (north (findRegions (regions m)))
             (south (findRegions (regions m))) = Some aS
           /\ decision (regions m) (north (findRegions (regions m)))
                (east (findRegions (regions m))) = Some aE
           /\ (aS <=? surplus) = true /\ (aE <=? surplus) = true
           /\ (surplus <? aS + aE) = true
           /\ transferRate aS = Some rS /\ transferRate aE = Some rE
           /\ canals (hourlyPass (findRegions (regions m)) (findCanals (canals m)) m)
              = [ Canal.mk "A" rS true; Canal.mk "B" 0 false;
                  Canal.mk "C" rE true; Canal.mk "D" 0 false ]
           /\ (surplus <? 3.6 * rS + 3.6 * rE) = true.
Proof.
  exists (regions thirstyManager), 2.
  split; [reflexivity|]. split; [reflexivity|]. split; [reflexivity|].
  intros [rs cs solved h hmax] Hrs Hcs. cbn [regions canals] in *. subst rs.
  destruct cs as [|[n1 r1 o1] [|[n2 r2 o2] [|[n3 r3 o3] [|[n4 r4 o4] [|c5 cs]]]]];
    try discriminate.
  cbn [map Canal.name] in Hcs. injection Hcs as -> -> -> ->.
  exists 2, 2, (2 / 3.6), (2 / 3.6).
  vm_compute. repeat split.
Qed.

(** ** Resolution of the canals by name *)

Lemma canalStep_keyOf (i : nat) (c : Canal.t) (acc : CanalRoles) (k : role) :
  getRole k (canalStep i c acc)
  = match keyOf (Canal.name c) with
    | Some k' => match k, k' with
                 | RoleA, RoleA | RoleB, RoleB | RoleC, RoleC | RoleD, RoleD => Some i
                 | _, _ => getRole k acc
                 end
    | None => getRole k acc
    end.
Proof.
  unfold canalStep, keyOf.
  destruct (contains "A" (Canal.name c)); [destruct k; reflexivity|].
  destruct (contains "B" (Canal.name c)); [destruct k; reflexivity|].
  destruct (contains "C" (Canal.name c)); [destruct k; reflexivity|].
  destruct (contains "D" (Canal.name c)); [destruct k; reflexivity|].
  reflexivity.
Qed.

Lemma canalStep_hit (i : nat) (c : Canal.t) (acc : CanalRoles) (k : role) :
  keyOf (Canal.name c) = Some k -> getRole k (canalStep i c acc) = Some i.
Proof. intros H. rewrite canalStep_keyOf, H. destruct k; reflexivity. Qed.

Lemma canalStep_miss (i : nat) (c : Canal.t) (acc : CanalRoles) (k : role) :
  keyOf (Canal.name c) <> Some k -> getRole k (canalStep i c acc) = getRole k acc.
Proof.
  intros H. rewrite canalStep_keyOf.
  destruct (keyOf (Canal.name c)) as [k'|]; [|reflexivity].
  destruct k, k'; try reflexivity; contradiction H; reflexivity.
Qed.

Lemma role_eq_dec (k k' : option role) : {k = k'} + {k <> k'}.
Proof. repeat decide equality. Qed.

(** The loop leaves in a role the canal of that role, when the collection
    holds exactly one. *)
Lemma findCanalsFrom_unique (k : role) (x : Canal.t) (cs pre : list Canal.t)
    (acc : CanalRoles) :
  keyOf (Canal.name x) = Some k ->
  (forall y, In y cs -> keyOf (Canal.name y) = Some k -> y = x) ->
  In x cs \/ deref pre (getRole k acc) = Some x ->
  deref (pre ++ cs) (getRole k (findCanalsFrom (List.length pre) cs acc)) = Some x.
Proof.
  intros Hx. revert pre acc.
  induction cs as [|y cs IH]; intros pre acc Huniq Hsrc; cbn [findCanalsFrom].
  - rewrite app_nil_r. destruct Hsrc as [[] | H]. exact H.
  - replace (pre ++ y :: cs) with ((pre ++ [y]) ++ cs) by (rewrite <- app_assoc; reflexivity).
    replace (S (List.length pre)) with (List.length (pre ++ [y])) by (rewrite length_app; cbn; lia).
    apply IH.
    + intros z Hz. apply Huniq. right. exact Hz.
    + destruct (role_eq_dec (keyOf (Canal.name y)) (Some k)) as [Hy | Hy].
      * right. rewrite canalStep_hit by assumption. cbn [deref].
        rewrite nth_error_app2 by lia. rewrite Nat.sub_diag. cbn.
        f_equal. apply Huniq; [left; reflexivity | assumption].
      * rewrite canalStep_miss by assumption.
        destruct Hsrc as [[Heq | Hin] | Hacc].
        -- subst y. contradiction.
        -- left. exact Hin.
        -- right. destruct (getRole k acc) as [j|]; [|discriminate].
           cbn [deref] in *. rewrite nth_error_app1; [exact Hacc|].
           apply nth_error_Some. rewrite Hacc. discriminate.
Qed.

Lemma findCanals_unique (k : role) (x : Canal.t) (cs : list Canal.t) :
  keyOf (Canal.name x) = Some k ->
  In x cs ->
  (forall y, In y cs -> keyOf (Canal.name y) = Some k -> y = x) ->
  deref cs (getRole k (findCanals cs)) = Some x.
Proof.
  intros Hx Hin Huniq.
  apply (@findCanalsFrom_unique k x cs [] _ Hx Huniq). left. exact Hin.
Qed.

Lemma findCanals_roles (a b c d : Canal.t) (cs : list Canal.t) :
  keyOf (Canal.name a) = Some RoleA ->
  keyOf (Canal.name b) = Some RoleB ->
  keyOf (Canal.name c) = Some RoleC ->
  keyOf (Canal.name d) = Some RoleD ->
  Permutation [a; b; c; d] cs ->
  deref cs (canalA (findCanals cs)) = Some a
  /\ deref cs (canalB (findCanals cs)) = Some b
  /\ deref cs (canalC (findCanals cs)) = Some c
  /\ deref cs (canalD (findCanals cs)) = Some d.
Proof.
  intros Ha Hb Hc Hd Hperm.
  assert (Hmem : forall y, In y cs -> y = a \/ y = b \/ y = c \/ y = d).
  { intros y Hy. apply (Permutation_in _ (Permutation_sym Hperm)) in Hy.
    cbn in Hy. intuition auto. }
  assert (Hin : forall y, In y [a; b; c; d] -> In y cs).
  { intros y. apply Permutation_in. exact Hperm. }
  repeat split.
  - apply (@findCanals_unique RoleA); [assumption | apply Hin; cbn; auto |].
    intros y Hy Hk. destruct (Hmem y Hy) as [-> | [-> | [-> | ->]]]; congruence.
  - apply (@findCanals_unique RoleB); [assumption | apply Hin; cbn; auto |].
    intros y Hy Hk. destruct (Hmem y Hy) as [-> | [-> | [-> | ->]]]; congruence.
  - apply (@findCanals_unique RoleC); [assumption | apply Hin; cbn; auto |].
    intros y Hy Hk. destruct (Hmem y Hy) as [-> | [-> | [-> | ->]]]; congruence.
  - apply (@findCanals_unique RoleD); [assumption | apply Hin; cbn; auto |].
    intros y Hy Hk. destruct (Hmem y Hy) as [-> | [-> | [-> | ->]]]; congruence.
Qed.


(** ** Resolution of the regions by name *)

Lemma regionStep_placeOf (i : nat) (r : Region.t) (acc : RegionRoles) (k : place) :
  getPlace k (regionStep i r acc)
  = match placeOf (Region.name r) with
    | Some k' => match k, k' with
                 | PlaceNorth, PlaceNorth | PlaceSouth, PlaceSouth
                 | PlaceEast, PlaceEast => Some i
                 | _, _ => getPlace k acc
                 end
    | None => getPlace k acc
    end.
Proof.
  unfold regionStep, placeOf.
  destruct (Region.name r =? "North")%string; [destruct k; reflexivity|].
  destruct (Region.name r =? "South")%string; [destruct k; reflexivity|].
  destruct (Region.name r =? "East")%string; [destruct k; reflexivity|].
  reflexivity.
Qed.

Lemma regionStep_hit (i : nat) (r : Region.t) (acc : RegionRoles) (k : place) :
  placeOf (Region.name r) = Some k -> getPlace k (regionStep i r acc) = Some i.
Proof. intros H. rewrite regionStep_placeOf, H. destruct k; reflexivity. Qed.

Lemma regionStep_miss (i : nat) (r : Region.t) (acc : RegionRoles) (k : place) :
  placeOf (Region.name r) <> Some k ->
  getPlace k (regionStep i r acc) = getPlace k acc.
Proof.
  intros H. rewrite regionStep_placeOf.
  destruct (placeOf (Region.name r)) as [k'|]; [|reflexivity].
  destruct k, k'; try reflexivity; contradiction H; reflexivity.
Qed.

Lemma place_eq_dec (k k' : option place) : {k = k'} + {k <> k'}.
Proof. repeat decide equality. Qed.

Lemma findRegionsFrom_unique (k : place) (x : Region.t) (rs pre : list Region.t)
    (acc : RegionRoles) :
  placeOf (Region.name x) = Some k ->
  (forall y, In y rs -> placeOf (Region.name y) = Some k -> y = x) ->
  In x rs \/ deref pre (getPlace k acc) = Some x ->
  deref (pre ++ rs) (getPlace k (findRegionsFrom (List.length pre) rs acc)) = Some x.
Proof.
  intros Hx. revert pre acc.
  induction rs as [|y rs IH]; intros pre acc Huniq Hsrc; cbn [findRegionsFrom].
  - rewrite app_nil_r. destruct Hsrc as [[] | H]. exact H.
  - replace (pre ++ y :: rs) with ((pre ++ [y]) ++ rs) by (rewrite <- app_assoc; reflexivity).
    replace (S (List.length pre)) with (List.length (pre ++ [y]))
      by (rewrite length_app; cbn; lia).
    apply IH.
    + intros z Hz. apply Huniq. right. exact Hz.
    + destruct (place_eq_dec (placeOf (Region.name y)) (Some k)) as [Hy | Hy].
      * right. rewrite regionStep_hit by assumption. cbn [deref].
        rewrite nth_error_app2 by lia. rewrite Nat.sub_diag. cbn.
        f_equal. apply Huniq; [left; reflexivity | assumption].
      * rewrite regionStep_miss by assumption.
        destruct Hsrc as [[Heq | Hin] | Hacc].
        -- subst y. contradiction.
        -- left. exact Hin.
        -- right. destruct (getPlace k acc) as [j|]; [|discriminate].
           cbn [deref] in *. rewrite nth_error_app1; [exact Hacc|].
           apply nth_error_Some. rewrite Hacc. discriminate.
Qed.

(** The regions are found by exact name, wherever they stand in the
    collection. *)
Lemma findRegions_order_independent (n s e : Region.t) (rs : list Region.t) :
  Region.name n = "North"%string ->
  Region.name s = "South"%string ->
  Region.name e = "East"%string ->
  Permutation [n; s; e] rs ->
  deref rs (north (findRegions rs)) = Some n
  /\ deref rs (south (findRegions rs)) = Some s
  /\ deref rs (east (findRegions rs)) = Some e.
Proof.
  intros Hn Hs He Hperm.
  assert (Kn : placeOf (Region.name n) = Some PlaceNorth) by (rewrite Hn; reflexivity).
  assert (Ks : placeOf (Region.name s) = Some PlaceSouth) by (rewrite Hs; reflexivity).
  assert (Ke : placeOf (Region.name e) = Some PlaceEast) by (rewrite He; reflexivity).
  assert (Hmem : forall y, In y rs -> y = n \/ y = s \/ y = e).
  { intros y Hy. apply (Permutation_in _ (Permutation_sym Hperm)) in Hy.
    cbn in Hy. intuition auto. }
  assert (Hin : forall y, In y [n; s; e] -> In y rs).
  { intros y. apply Permutation_in. exact Hperm. }
  repeat split.
  - apply (@findRegionsFrom_unique PlaceNorth n rs [] _ Kn).
    + intros y Hy Hk. destruct (Hmem y Hy) as [-> | [-> | ->]]; congruence.
    + left. apply Hin. cbn. auto.
  - apply (@findRegionsFrom_unique PlaceSouth s rs [] _ Ks).
    + intros y Hy Hk. destruct (Hmem y Hy) as [-> | [-> | ->]]; congruence.
    + left. apply Hin. cbn. auto.
  - apply (@findRegionsFrom_unique PlaceEast e rs [] _ Ke).
    + intros y Hy Hk. destruct (Hmem y Hy) as [-> | [-> | ->]]; congruence.
    + left. apply Hin. cbn. auto.
Qed.

(** ** The pass, canal by canal *)

Lemma update_map_unique (A B : Type) (P : A -> bool) (f : B -> B) (g : A -> B)
    (cs : list A) (i : nat) (x : A) :
  nth_error cs i = Some x -> P x = true ->
  (forall j y, nth_error cs j = Some y -> P y = true -> j = i) ->
  update i f (map g cs) = map (fun y => if P y then f (g y) else g y) cs.
Proof.
  revert i. induction cs as [|c cs IH]; intros [|i] Hx HP Huniq; cbn in *; try discriminate.
  - injection Hx as ->. rewrite HP. f_equal.
    apply map_ext_in. intros y Hy.
    destruct (P y) eqn:E; [|reflexivity].
    apply In_nth_error in Hy as [j Hj].
    specialize (Huniq (S j) y Hj E). discriminate.
  - destruct (P c) eqn:E.
    + specialize (Huniq 0%nat c eq_refl E). discriminate.
    + f_equal. apply IH; try assumption.
      intros j y Hj Hy. specialize (Huniq (S j) y Hj Hy). lia.
Qed.

Lemma scheduledCanal_name (a : option double) (c : Canal.t) :
  Canal.name (scheduledCanal a c) = Canal.name c.
Proof.
  unfold scheduledCanal. destruct a as [amount|]; [|reflexivity].
  destruct (transferRate amount); reflexivity.
Qed.

Lemma applyDecision_map_unique (k : role) (a : option double)
    (g : Canal.t -> Canal.t) (cs : list Canal.t) (p : ptr) (x : Canal.t) :
  deref cs p = Some x -> hasRole k x = true ->
  (forall j y, nth_error cs j = Some y -> hasRole k y = true -> Some j = p) ->
  applyDecision p a (map g cs)
  = map (fun y => if hasRole k y then scheduledCanal a (g y) else g y) cs.
Proof.
  intros Hx Hk Huniq. destruct p as [i|]; [|discriminate]. cbn [deref] in Hx.
  unfold applyDecision, scheduleTransfer, scheduledCanal.
  destruct a as [amount|].
  - destruct (transferRate amount) as [r|].
    + apply (@update_map_unique _ _ (hasRole k)
               (fun c => Canal.toggleOpen true (Canal.setFlowRate r c)) g cs i x);
        try assumption.
      intros j y Hj Hy. specialize (Huniq j y Hj Hy). congruence.
    + apply map_ext. intros y. destruct (hasRole k y); reflexivity.
  - apply map_ext. intros y. destruct (hasRole k y); reflexivity.
Qed.

Lemma hasRole_keyOf (k : role) (c : Canal.t) :
  hasRole k c = true <-> keyOf (Canal.name c) = Some k.
Proof.
  unfold hasRole. destruct (keyOf (Canal.name c)) as [k'|].
  - destruct k, k'; cbn; split; congruence.
  - split; discriminate.
Qed.

Lemma unique_positions (cs : list Canal.t) (k : role) (i j : nat) (x y : Canal.t) :
  NoDup (map (fun c => keyOf (Canal.name c)) cs) ->
  nth_error cs i = Some x -> hasRole k x = true ->
  nth_error cs j = Some y -> hasRole k y = true ->
  j = i.
Proof.
  intros Hnd Hx Hkx Hy Hky.
  apply hasRole_keyOf in Hkx, Hky.
  rewrite NoDup_nth_error in Hnd. apply Hnd.
  - rewrite length_map. apply nth_error_Some. rewrite Hy. discriminate.
  - rewrite !nth_error_map, Hx, Hy. cbn. congruence.
Qed.

(** When every role is resolved to a canal of that role and no two canals
    share a role, the pass treats each canal according to its name. *)
Lemma hourlyPass_by_name (rr : RegionRoles) (m : AcequiaManager)
    (a b c d : Canal.t) :
  let cr := findCanals (canals m) in
  NoDup (map (fun c => keyOf (Canal.name c)) (canals m)) ->
  deref (canals m) (canalA cr) = Some a -> hasRole RoleA a = true ->
  deref (canals m) (canalB cr) = Some b -> hasRole RoleB b = true ->
  deref (canals m) (canalC cr) = Some c -> hasRole RoleC c = true ->
  deref (canals m) (canalD cr) = Some d -> hasRole RoleD d = true ->
  canals (hourlyPass rr cr m) = map (plannedCanal (regions m) rr) (canals m).
Proof.
  cbv zeta. set (cr := findCanals (canals m)).
  intros Hnd HA HkA HB HkB HC HkC HD HkD.
  rewrite hourlyPass_canals.
  assert (Hu : forall k p x, deref (canals m) p = Some x -> hasRole k x = true ->
               forall j y, nth_error (canals m) j = Some y -> hasRole k y = true ->
                           Some j = p).
  { intros k [i|] x Hx Hk j y Hy Hky; [|discriminate]. cbn [deref] in Hx. f_equal.
    exact (@unique_positions (canals m) k i j x y Hnd Hx Hk Hy Hky). }
  unfold closeAllCanals.
  rewrite (@applyDecision_map_unique RoleA _ _ _ _ a HA HkA (Hu _ _ _ HA HkA)).
  rewrite (@applyDecision_map_unique RoleC _ _ _ _ c HC HkC (Hu _ _ _ HC HkC)).
  rewrite (@applyDecision_map_unique RoleB _ _ _ _ b HB HkB (Hu _ _ _ HB HkB)).
  rewrite (@applyDecision_map_unique RoleD _ _ _ _ d HD HkD (Hu _ _ _ HD HkD)).
  apply map_ext. intros y. unfold plannedCanal, hasRole.
  destruct (keyOf (Canal.name y)) as [[ | | | ]|]; reflexivity.
Qed.

(** When the name of each of the four canals of the topology passes the
    substring test of its own role and of no earlier role of the chain,
    every ordering of the collection resolves each role to the canal of that
    role, and the hourly pass leaves each canal in a state that depends on
    its name and on the regions only. *)
Lemma findCanals_order_independent (a b c d : Canal.t) (cs : list Canal.t)
    (rr : RegionRoles) (m : AcequiaManager) :
  keyOf (Canal.name a) = Some RoleA ->
  keyOf (Canal.name b) = Some RoleB ->
  keyOf (Canal.name c) = Some RoleC ->
  keyOf (Canal.name d) = Some RoleD ->
  Permutation [a; b; c; d] cs ->
  let cr := findCanals cs in
  deref cs (canalA cr) = Some a
  /\ deref cs (canalB cr) = Some b
  /\ deref cs (canalC cr) = Some c
  /\ deref cs (canalD cr) = Some d
  /\ canals (hourlyPass rr cr (with_canals cs m))
     = map (plannedCanal (regions m) rr) cs
  /\ Permutation (map (plannedCanal (regions m) rr) [a; b; c; d])
                 (canals (hourlyPass rr cr (with_canals cs m))).
Proof.
  intros Ha Hb Hc Hd Hperm. cbv zeta.
  destruct (findCanals_roles Ha Hb Hc Hd Hperm) as (HA & HB & HC & HD).
  assert (Hpass : canals (hourlyPass rr (findCanals cs) (with_canals cs m))
                  = map (plannedCanal (regions m) rr) cs).
  { apply (@hourlyPass_by_name rr (with_canals cs m) a b c d);
      cbn [canals with_canals]; try assumption; try (apply hasRole_keyOf; assumption).
    apply (Permutation_NoDup (Permutation_map _ Hperm)).
    cbn [map]. rewrite Ha, Hb, Hc, Hd.
    repeat constructor; cbn; intuition discriminate. }
  repeat split; try assumption.
  rewrite Hpass. apply Permutation_map. exact Hperm.
Qed.

Lemma findCanals_order_independent_bare_keys :
  deref shuffledCanals (canalA (findCanals shuffledCanals)) = Some keyA
  /\ deref shuffledCanals (canalB (findCanals shuffledCanals)) = Some keyB
  /\ deref shuffledCanals (canalC (findCanals shuffledCanals)) = Some keyC
  /\ deref shuffledCanals (canalD (findCanals shuffledCanals)) = Some keyD.
Proof.
  assert (Hperm : Permutation [keyA; keyB; keyC; keyD] shuffledCanals).
  { apply perm_trans with [keyD; keyA; keyB; keyC].
    - apply Permutation_sym.
      apply (Permutation_cons_app [keyA; keyB; keyC] []). reflexivity.
    - apply perm_skip. apply perm_swap. }
  destruct (@findCanals_order_independent keyA keyB keyC keyD shuffledCanals
              (findRegions (regions sampleManager)) sampleManager
              eq_refl eq_refl eq_refl eq_refl Hperm) as (HA & HB & HC & HD & _).
  repeat split; assumption.
Defined.

(** With the names "Canal A" to "Canal D" the role of a canal depends on the
    order of the collection: the capital C of "Canal" passes the test of role
    C, so role C goes to whichever of the last two canals comes last, and
    role D is never resolved. *)
Lemma findCanals_order_dependent :
  Permutation namedCanals namedCanalsSwapped
  /\ deref namedCanals (canalC (findCanals namedCanals)) = Some canalNamedD
  /\ deref namedCanalsSwapped (canalC (findCanals namedCanalsSwapped))
     = Some canalNamedC
  /\ canalD (findCanals namedCanals) = None
  /\ canalD (findCanals namedCanalsSwapped) = None.
Proof.
  split; [unfold namedCanals, namedCanalsSwapped; repeat apply perm_skip; apply perm_swap|].
  repeat split.
Qed.

Lemma tryTransfer_null_canal (src dst : ptr) (m : AcequiaManager) :
  tryTransfer src dst None m = m.
Proof. destruct src, dst; reflexivity. Qed.

(** C1.  With the canals named "Canal A" to "Canal D" the roles are not
    resolved to the canals the source names for them.  The name "Canal D"
    passes the test of role C before the test of role D is reached (the
    capital C of "Canal"), so the pointer of role D stays null and the
    attempt East -> North never schedules anything, for any manager; and
    role C goes to whichever of "Canal C" and "Canal D" comes last.  In the
    order A, B, C, D the decision North -> East (the amount 2) is written to
    "Canal D" and "Canal C" stays closed; with the last two canals exchanged
    it is written to "Canal C".  The transfers scheduled depend on the
    order of the collection. *)
Theorem findCanals_misassigns_roles :
  keyOf "Canal D" = Some RoleC
  /\ Permutation namedCanals namedCanalsSwapped
  /\ deref namedCanals (canalC (findCanals namedCanals)) = Some canalNamedD
  /\ deref namedCanalsSwapped (canalC (findCanals namedCanalsSwapped))
     = Some canalNamedC
  /\ canalD (findCanals namedCanals) = None
  /\ canalD (findCanals namedCanalsSwapped) = None
  /\ (forall src dst m,
        tryTransfer src dst (canalD (findCanals namedCanals)) m = m)
  /\ decision (regions namedManager)
       (north (findRegions (regions namedManager)))
       (east (findRegions (regions namedManager))) = Some 2
  /\ canals (hourlyPass (findRegions (regions namedManager))
               (findCanals (canals namedManager)) namedManager)
     = [ Canal.mk "Canal A" (2 / 3.6) true; Canal.mk "Canal B" 0 false;
         Canal.mk "Canal C" 0 false; Canal.mk "Canal D" (2 / 3.6) true ]
  /\ canals (hourlyPass (findRegions (regions namedManagerSwapped))
               (findCanals (canals namedManagerSwapped)) namedManagerSwapped)
     = [ Canal.mk "Canal A" (2 / 3.6) true; Canal.mk "Canal B" 0 false;
         Canal.mk "Canal D" 0 false; Canal.mk "Canal C" (2 / 3.6) true ].
Proof.
  split; [reflexivity|].
  split; [unfold namedCanals, namedCanalsSwapped; repeat apply perm_skip; apply perm_swap|].
  do 4 (split; [reflexivity|]).
  split; [intros src dst m; apply tryTransfer_null_canal|].
  repeat split.
Qed.

(** * The scenarios of the specification, run on the model *)

(** North can spare 40 and South lacks 70: the canal from North to South is
    opened, at the largest rate since 40 is more than an hour can carry. *)
Example scenario_north_south :
  computeSafeSurplus (Some sampleNorth) = 40
  /\ computeDeficit (Some sampleSouth) = 70
  /\ decision (regions sampleManager) (Some 0%nat) (Some 1%nat) = Some 40
  /\ canals (hourlyPass (findRegions (regions sampleManager))
                        (findCanals (canals sampleManager)) sampleManager)
     = [ Canal.mk "A" 1 true; Canal.mk "B" 0 false;
         Canal.mk "C" 0 false; Canal.mk "D" 0 false ].
Proof. repeat split. Qed.

(** Every region at its keep level: nothing is scheduled. *)
Example scenario_settled :
  canals (hourlyPass (findRegions (regions settledManager))
                     (findCanals (canals settledManager)) settledManager)
  = allClosed.
Proof. reflexivity. Qed.

(** A destination at its capacity receives nothing, whatever the source can
    spare. *)
Example scenario_brimful :
  computeSafeSurplus (Some (Region.mk "North" 100 50 200)) = 40
  /\ computeDeficit (Some (Region.mk "South" 80 90 80)) = 10
  /\ canals (hourlyPass (findRegions (regions brimfulManager))
                        (findCanals (canals brimfulManager)) brimfulManager)
     = allClosed.
Proof. repeat split. Qed.

(** Why the regions are assumed to hold numbers: a level that is NaN makes
    every comparison false, and the deficit is NaN. *)
Example deficit_of_nan :
  numeric brokenRegion = false
  /\ is_nan (computeDeficit (Some brokenRegion)) = true
  /\ (0 <=? computeDeficit (Some brokenRegion)) = false.
Proof. repeat split. Qed.

(** * Further properties of the policy *)

(** ** What the resolution loops leave in a pointer *)

Lemma lastIndexFrom_none (A : Type) (P : A -> bool) (i : nat) (l : list A)
    (acc : option nat) :
  lastIndexFrom P i l acc = None
  <-> acc = None /\ forall x, In x l -> P x = false.
Proof.
  revert i acc. induction l as [|y l IH]; intros i acc; cbn [lastIndexFrom].
  - split; [intros ->; split; [reflexivity | intros x []] | intros [H _]; exact H].
  - rewrite IH. split.
    + intros [Hacc Hl]. destruct (P y) eqn:E; [discriminate|].
      split; [assumption|]. intros x [<- | Hx]; auto.
    + intros [Hacc Hl]. rewrite (Hl y (or_introl eq_refl)).
      split; [assumption|]. intros x Hx. apply Hl. right. exact Hx.
Qed.

Lemma lastIndexFrom_some (A : Type) (P : A -> bool) (pre l : list A)
    (acc : option nat) (j : nat) :
  lastIndexFrom P (List.length pre) l acc = Some j
  <-> (exists x, nth_error (pre ++ l) j = Some x /\ (List.length pre <= j)%nat
                 /\ P x = true
                 /\ forall j' x', (j < j')%nat -> nth_error (pre ++ l) j' = Some x' ->
                                  P x' = false)
      \/ (acc = Some j /\ forall x, In x l -> P x = false).
Proof.
  revert pre acc. induction l as [|y l IH]; intros pre acc; cbn [lastIndexFrom].
  - rewrite app_nil_r. split.
    + intros H. right. split; [exact H | intros x []].
    + intros [(x & Hx & Hle & _) | [H _]]; [|exact H].
      apply nth_error_None in Hle. congruence.
  - replace (S (List.length pre)) with (List.length (pre ++ [y]))
      by (rewrite length_app; cbn; lia).
    rewrite IH. rewrite <- app_assoc. cbn [app].
    assert (Hy : nth_error (pre ++ y :: l) (List.length pre) = Some y).
    { rewrite nth_error_app2 by lia. rewrite Nat.sub_diag. reflexivity. }
    assert (Hrest : forall x, In x l ->
              exists j', (List.length pre < j')%nat /\ nth_error (pre ++ y :: l) j' = Some x).
    { intros x Hx. apply In_nth_error in Hx as [n Hn].
      exists (List.length pre + S n)%nat. split; [lia|].
      rewrite nth_error_app2 by lia.
      replace (List.length pre + S n - List.length pre)%nat with (S n) by lia. exact Hn. }
    assert (Hlater : forall j' x', (List.length pre < j')%nat ->
              nth_error (pre ++ y :: l) j' = Some x' -> In x' l).
    { intros j' x' Hj' Hx'. rewrite nth_error_app2 in Hx' by lia.
      destruct (j' - List.length pre)%nat as [|n] eqn:E; [lia|].
      cbn in Hx'. apply nth_error_In in Hx'. exact Hx'. }
    rewrite length_app. cbn [List.length].
    split.
    + intros [(x & Hx & Hle & HP & Hafter) | [Hacc Hl]].
      * left. exists x. repeat split; try assumption. lia.
      * destruct (P y) eqn:E.
        -- injection Hacc as <-. left. exists y. repeat split; try assumption; try lia.
           intros j' x' Hj' Hx'. apply Hl. eapply Hlater; eassumption.
        -- right. split; [assumption|]. intros x [<- | Hx]; auto.
    + intros [(x & Hx & Hle & HP & Hafter) | [Hacc Hl]].
      * destruct (Nat.eq_dec j (List.length pre)) as [-> | Hne].
        -- right. rewrite Hy in Hx. injection Hx as <-. rewrite HP.
           split; [reflexivity|]. intros x Hx.
           destruct (Hrest x Hx) as (j' & Hj' & Hn). eapply Hafter; eassumption.
        -- left. exists x. repeat split; try assumption. lia.
      * right. rewrite (Hl y (or_introl eq_refl)).
        split; [assumption|]. intros x Hx. apply Hl. right. exact Hx.
Qed.

Lemma hasRole_carries (k : role) (c : Canal.t) :
  hasRole k c = carries k (Canal.name c).
Proof.
  unfold hasRole, keyOf, carries.
  destruct (contains "A" (Canal.name c)); [destruct k; reflexivity|].
  destruct (contains "B" (Canal.name c)); [destruct k; reflexivity|].
  destruct (contains "C" (Canal.name c)); [destruct k; reflexivity|].
  destruct (contains "D" (Canal.name c)); destruct k; reflexivity.
Qed.

Lemma findCanalsFrom_lastIndex (k : role) (i : nat) (cs : list Canal.t)
    (acc : CanalRoles) :
  getRole k (findCanalsFrom i cs acc)
  = lastIndexFrom (fun c => carries k (Canal.name c)) i cs (getRole k acc).
Proof.
  revert i acc. induction cs as [|c cs IH]; intros i acc;
    cbn [findCanalsFrom lastIndexFrom]; [reflexivity|].
  rewrite IH. f_equal. rewrite <- hasRole_carries.
  destruct (hasRole k c) eqn:E.
  - apply canalStep_hit. apply hasRole_keyOf. exact E.
  - apply canalStep_miss. intros H. apply hasRole_keyOf in H. congruence.
Qed.

Lemma named_placeOf (k : place) (r : Region.t) :
  named k r = true <-> placeOf (Region.name r) = Some k.
Proof.
  unfold named, placeOf.
  destruct (String.eqb_spec (Region.name r) "North") as [-> | Hn];
    [destruct k; cbn; split; congruence|].
  destruct (String.eqb_spec (Region.name r) "South") as [-> | Hs];
    [destruct k; cbn; split; congruence|].
  destruct (String.eqb_spec (Region.name r) "East") as [-> | He];
    [destruct k; cbn; split; congruence|].
  destruct k; cbn [placeName]; (split; [intros H; apply String.eqb_eq in H; congruence | discriminate]).
Qed.

Lemma findRegionsFrom_lastIndex (k : place) (i : nat) (rs : list Region.t)
    (acc : RegionRoles) :
  getPlace k (findRegionsFrom i rs acc)
  = lastIndexFrom (named k) i rs (getPlace k acc).
Proof.
  revert i acc. induction rs as [|r rs IH]; intros i acc;
    cbn [findRegionsFrom lastIndexFrom]; [reflexivity|].
  rewrite IH. f_equal.
  destruct (named k r) eqn:E.
  - apply regionStep_hit. apply named_placeOf. exact E.
  - apply regionStep_miss. intros H. apply named_placeOf in H. congruence.
Qed.

Lemma findRegions_some (k : place) (rs : list Region.t) (j : nat) :
  getPlace k (findRegions rs) = Some j
  <-> exists r, nth_error rs j = Some r
                /\ named k r = true
                /\ forall j' r', (j < j')%nat -> nth_error rs j' = Some r' ->
                                 named k r' = false.
Proof.
  unfold findRegions. rewrite findRegionsFrom_lastIndex.
  change 0%nat with (@List.length Region.t []).
  rewrite lastIndexFrom_some. cbn [app]. split.
  - intros [(r & Hr & _ & Hn & Hafter) | [H _]]; [|destruct k; discriminate].
    exists r. auto.
  - intros (r & Hr & Hn & Hafter). left. exists r.
    split; [assumption|]. split; [cbn; lia|]. split; assumption.
Qed.

Lemma findRegions_none (k : place) (rs : list Region.t) :
  getPlace k (findRegions rs) = None
  <-> forall r, In r rs -> named k r = false.
Proof.
  unfold findRegions. rewrite findRegionsFrom_lastIndex, lastIndexFrom_none.
  split; [intros [_ H]; exact H | intros H; split; [destruct k; reflexivity | exact H]].
Qed.

Lemma findCanals_some (k : role) (cs : list Canal.t) (j : nat) :
  getRole k (findCanals cs) = Some j
  <-> exists c, nth_error cs j = Some c
                /\ carries k (Canal.name c) = true
                /\ forall j' c', (j < j')%nat -> nth_error cs j' = Some c' ->
                                 carries k (Canal.name c') = false.
Proof.
  unfold findCanals. rewrite findCanalsFrom_lastIndex.
  change 0%nat with (@List.length Canal.t []).
  rewrite lastIndexFrom_some. cbn [app]. split.
  - intros [(c & Hc & _ & Hk & Hafter) | [H _]]; [|destruct k; discriminate].
    exists c. auto.
  - intros (c & Hc & Hk & Hafter). left. exists c.
    split; [assumption|]. split; [cbn; lia|]. split; assumption.
Qed.

Lemma findCanals_none (k : role) (cs : list Canal.t) :
  getRole k (findCanals cs) = None
  <-> forall c, In c cs -> carries k (Canal.name c) = false.
Proof.
  unfold findCanals. rewrite findCanalsFrom_lastIndex, lastIndexFrom_none.
  split; [intros [_ H]; exact H | intros H; split; [destruct k; reflexivity | exact H]].
Qed.

(** X1.  After the region loop, the pointer of a place designates the last
    region of the collection whose name is exactly the name of the place, and
    is null exactly when the collection holds no region of that name. *)
Theorem findRegions_resolves_last (k : place) (rs : list Region.t) :
  (forall j,
     getPlace k (findRegions rs) = Some j
     <-> exists r, nth_error rs j = Some r
                   /\ Region.name r = placeName k
                   /\ forall j' r', (j < j')%nat -> nth_error rs j' = Some r' ->
                                    Region.name r' <> placeName k)
  /\ (getPlace k (findRegions rs) = None
      <-> forall r, In r rs -> Region.name r <> placeName k).
Proof.
  split.
  - intros j. rewrite findRegions_some. unfold named. split.
    + intros (r & Hr & Hn & Hafter). exists r.
      split; [assumption|]. split; [apply String.eqb_eq; assumption|].
      intros j' r' Hj' Hr'. apply String.eqb_neq. eapply Hafter; eassumption.
    + intros (r & Hr & Hn & Hafter). exists r.
      split; [assumption|]. split; [apply String.eqb_eq; assumption|].
      intros j' r' Hj' Hr'. apply String.eqb_neq. eapply Hafter; eassumption.
  - rewrite findRegions_none. unfold named.
    split; intros H r Hr; apply String.eqb_neq; apply H; exact Hr.
Qed.

(** X2.  After the canal loop, the pointer of a role designates the last
    canal of the collection whose name contains the letter of the role and
    the letter of no role tested before it, and is null exactly when the
    collection holds no such canal. *)
Theorem findCanals_resolves_last (k : role) (cs : list Canal.t) :
  (forall j,
     getRole k (findCanals cs) = Some j
     <-> exists c, nth_error cs j = Some c
                   /\ carries k (Canal.name c) = true
                   /\ forall j' c', (j < j')%nat -> nth_error cs j' = Some c' ->
                                    carries k (Canal.name c') = false)
  /\ (getRole k (findCanals cs) = None
      <-> forall c, In c cs -> carries k (Canal.name c) = false).
Proof.
  split; [intros j; apply findCanals_some | apply findCanals_none].
Qed.

(** ** Strict sign of a difference *)

Section Difference.

Local Open Scope Z_scope.

(** The difference of two distinct values is not zero: every value is a
    multiple of the smallest positive one, and so is the exact difference. *)
Lemma SFsub_strict (a b : spec_float) :
  valid_binary a = true -> valid_binary b = true ->
  is_nan_sf a = false -> is_nan_sf b = false ->
  SF2Z b < SF2Z a ->
  0 < SF2Z (SFsub prec emax a b).
Proof.
  assert (Hbeyond : 0 < beyond) by (apply Z.pow_pos_nonneg; lia).
  intros Va Vb Na Nb.
  destruct a as [sa | sa | | sa ma ea]; try discriminate;
    destruct b as [sb | sb | | sb mb eb]; try discriminate;
    cbn [valid_binary] in Va, Vb;
    try pose proof (finite_magnitude _ _ Va);
    try pose proof (finite_magnitude _ _ Vb);
    cbn [SF2Z]; intros Hlt.
  1-7: repeat match goal with s : bool |- _ => destruct s end;
    cbn [cond_Zopp SFsub SF2Z negb] in *; lia.
  - pose proof (bounded_inv _ _ Va) as (Hea & _).
    pose proof (bounded_inv _ _ Vb) as (Heb & _).
    cbn [SFsub].
    set (ez := Z.min ea eb).
    pose proof (@aligned_SF2Z sa ma ea ez ltac:(unfold ez; lia)) as HA.
    pose proof (@aligned_SF2Z sb mb eb ez ltac:(unfold ez; lia)) as HB.
    cbn [SF2Z] in HA, HB.
    set (A := cond_Zopp sa (Zpos (fst (shl_align ma ea ez)))) in *.
    set (B := cond_Zopp sb (Zpos (fst (shl_align mb eb ez)))) in *.
    assert (Hp : 0 < 2 ^ (ez + 1074)) by (apply Z.pow_pos_nonneg; unfold ez; lia).
    assert (Hez : -1074 <= ez) by (unfold ez; lia).
    assert (HAB : 0 < A - B) by nia.
    destruct (A - B) as [ | p | p]; try lia.
    cbn [binary_normalize]. unfold binary_round. rewrite fexp_eq.
    unfold shl_align.
    destruct (Z.max (Zpos (digits2_pos p) + ez - 53) (-1074) - ez) as [ | d | d] eqn:Ed;
      apply round_positive; lia.
Qed.

Lemma sub_strict (x y : float) :
  is_nan x = false -> is_nan y = false -> F2Z y < F2Z x ->
  is_nan (x - y) = false /\ 0 < F2Z (x - y).
Proof.
  intros Nx Ny Hlt. split.
  - exact (proj1 (signed_as_false_nonneg _ (@sub_pos x y Nx Ny Hlt))).
  - revert Nx Ny Hlt. rewrite !is_nan_spec. unfold F2Z. rewrite sub_spec.
    intros Nx Ny Hlt.
    exact (SFsub_strict _ _ (Prim2SF_valid x) (Prim2SF_valid y) Nx Ny Hlt).
Qed.

Lemma leb_zero_false (x : float) :
  is_nan x = false -> 0 < F2Z x -> (x <=? 0)%float = false.
Proof.
  intros Nx Hx. rewrite leb_F2Z by auto. change (F2Z 0) with 0.
  apply Z.leb_gt. exact Hx.
Qed.

End Difference.

Lemma computeDeficit_guard (r : Region.t) :
  numeric r = true ->
  (computeDeficit (Some r) <=? 0) = (Region.waterNeed r <=? Region.waterLevel r).
Proof.
  intros Hnum. apply numeric_inv in Hnum as (Nl & Nn & _).
  unfold computeDeficit.
  destruct (Region.waterNeed r <=? Region.waterLevel r) eqn:E; [reflexivity|].
  apply leb_false_inv in E; try assumption.
  destruct (@sub_strict _ _ Nn Nl E) as [N H]. apply leb_zero_false; assumption.
Qed.

Lemma computeSafeSurplus_guard (r : Region.t) :
  numeric r = true ->
  (computeSafeSurplus (Some r) <=? 0) = (Region.waterLevel r <=? keepLevel r).
Proof.
  intros Hnum. pose proof (keepLevel_not_nan r Hnum) as Nk.
  apply numeric_inv in Hnum as (Nl & _ & _).
  rewrite computeSafeSurplus_unfold.
  destruct (Region.waterLevel r <=? keepLevel r) eqn:E; [reflexivity|].
  apply leb_false_inv in E; try assumption.
  destruct (@sub_strict _ _ Nl Nk E) as [N H]. apply leb_zero_false; assumption.
Qed.

(** X7.  For a region whose numbers can be compared, the deficit is zero or
    negative exactly when the need does not exceed the level, and the safe
    surplus is zero or negative exactly when the level does not exceed the
    level the region keeps: a difference of two distinct levels never rounds
    to zero, so the guards of [tryTransfer] on the two results decide the
    same as comparing the levels. *)
Theorem evaluators_guard (r : Region.t) :
  numeric r = true ->
  (computeDeficit (Some r) <=? 0) = (Region.waterNeed r <=? Region.waterLevel r)
  /\ (computeSafeSurplus (Some r) <=? 0) = (Region.waterLevel r <=? keepLevel r).
Proof.
  intros Hnum. split; [apply computeDeficit_guard | apply computeSafeSurplus_guard];
    exact Hnum.
Qed.

Lemma evaluators_guard_witness :
  (computeDeficit (Some sampleSouth) <=? 0) = false
  /\ (computeSafeSurplus (Some sampleSouth) <=? 0) = true.
Proof.
  destruct (@evaluators_guard sampleSouth eq_refl) as [Hd Hs].
  split; [rewrite Hd | rewrite Hs]; reflexivity.
Defined.

(** ** The rate written to a canal *)

Lemma is_nan_inv (x : double) : is_nan x = true -> x = nan.
Proof.
  rewrite is_nan_spec. intros H. apply Prim2SF_inj.
  destruct (Prim2SF x); try discriminate. reflexivity.
Qed.

Lemma transferRate_range (amount r : double) :
  is_nan amount = false -> transferRate amount = Some r ->
  (0 <? r) = true /\ (r <=? 1) = true.
Proof.
  intros Na H.
  destruct (amount <=? 0) eqn:E0.
  { rewrite (transferRate_nonpositive E0) in H. discriminate. }
  apply leb_false_inv in E0; try assumption; [|reflexivity].
  assert (Hpos : (0 <? amount) = true) by (apply ltb_intro; auto).
  destruct (amount <=? 3.6) eqn:E36.
  - destruct (div_3_6_small Hpos E36) as [Nq Hle].
    destruct (0 <? amount / 3.6) eqn:Eq.
    + destruct (transferRate_small Hpos E36 Eq) as [Ht _].
      rewrite Ht in H. injection H as <-. auto.
    + exfalso. unfold transferRate in H.
      apply ltb_false_inv in Eq; try assumption; [|reflexivity].
      apply leb_true_inv in Hle as (_ & _ & Hle).
      rewrite (@leb_F2Z amount 0), (@ltb_F2Z 1 (amount / 3.6)) in H by auto.
      destruct (Z.leb_spec (F2Z amount) (F2Z 0)); [lia|].
      destruct (Z.ltb_spec (F2Z 1) (F2Z (amount / 3.6))); [lia|].
      rewrite (@leb_F2Z (amount / 3.6) 0) in H by auto.
      destruct (Z.leb_spec (F2Z (amount / 3.6)) (F2Z 0)); [discriminate | lia].
  - apply leb_false_inv in E36; try assumption; [|reflexivity].
    assert (Hgt : (3.6 <? amount) = true) by (apply ltb_intro; auto).
    rewrite (transferRate_large Hgt) in H. injection H as <-. split; reflexivity.
Qed.

(** X10.  For an amount that is a number, [scheduleTransfer] either leaves
    the canals as they are or opens the canal it is given with a rate that is
    above zero and at most one; it never writes a rate outside that range.
    For an amount that is not a number both guards are passed, and the canal
    is opened with a rate that is not a number. *)
Theorem scheduleTransfer_rate_range (canal : ptr) (amount : double)
    (cs : list Canal.t) :
  (is_nan amount = false ->
   scheduleTransfer canal amount cs = cs
   \/ exists i rate,
        canal = Some i
        /\ (0 <? rate) = true /\ (rate <=? 1) = true
        /\ scheduleTransfer canal amount cs
           = update i (fun c => Canal.mk (Canal.name c) rate true) cs)
  /\ (is_nan amount = true ->
      forall i, scheduleTransfer (Some i) amount cs
                = update i (fun c => Canal.mk (Canal.name c) nan true) cs).
Proof.
  split.
  - intros Na. unfold scheduleTransfer.
    destruct canal as [i|]; [|left; reflexivity].
    destruct (transferRate amount) as [rate|] eqn:Er; [|left; reflexivity].
    destruct (@transferRate_range amount rate Na Er) as [H0 H1].
    right. exists i, rate. repeat split; assumption.
  - intros Na i. apply is_nan_inv in Na. subst amount. reflexivity.
Qed.

Lemma scheduleTransfer_rate_range_witness :
  (scheduleTransfer (Some 1%nat) 1.8 sampleCanals = sampleCanals
   \/ exists i rate,
        Some 1%nat = Some i
        /\ (0 <? rate) = true /\ (rate <=? 1) = true
        /\ scheduleTransfer (Some 1%nat) 1.8 sampleCanals
           = update i (fun c => Canal.mk (Canal.name c) rate true) sampleCanals)
  /\ scheduleTransfer (Some 1%nat) nan sampleCanals
     = update 1 (fun c => Canal.mk (Canal.name c) nan true) sampleCanals.
Proof.
  split.
  - apply (scheduleTransfer_rate_range (Some 1%nat) 1.8 sampleCanals). reflexivity.
  - apply (scheduleTransfer_rate_range (Some 1%nat) nan sampleCanals). reflexivity.
Defined.

(** ** The decisions of a pass *)

Lemma decision_deref (rs : list Region.t) (src dst : ptr) :
  decision rs src dst = decisionOf (deref rs src) (deref rs dst).
Proof.
  unfold decision, decisionOf.
  destruct src as [i|], dst as [j|]; cbn [deref]; try reflexivity.
  - destruct (nth_error rs i) as [s|], (nth_error rs j) as [d|]; try reflexivity.
    cbn [computeSafeSurplus]. change (0 <=? 0) with true.
    rewrite orb_true_r. reflexivity.
  - destruct (nth_error rs i); reflexivity.
Qed.

Lemma std_min3_not_nan (a b c : double) :
  is_nan a = false -> is_nan b = false -> is_nan (std_min3 a b c) = false.
Proof.
  intros Na Nb. unfold std_min3.
  destruct (b <? a); [destruct (c <? b) eqn:E | destruct (c <? a) eqn:E];
    try assumption; exact (proj1 (ltb_true_not_nan E)).
Qed.

Lemma decisionOf_not_nan (s d : Region.t) (amount : double) :
  numeric s = true -> numeric d = true ->
  decisionOf (Some s) (Some d) = Some amount -> is_nan amount = false.
Proof.
  intros Ns Nd. unfold decisionOf.
  destruct (_ || _); [discriminate|].
  destruct (_ <=? 0); [discriminate|].
  destruct (_ <=? 0); [discriminate|].
  intros H. injection H as <-. apply std_min3_not_nan.
  - exact (proj1 (signed_as_false_nonneg _ (computeDeficit_signed d Nd))).
  - exact (proj1 (signed_as_false_nonneg _ (computeSafeSurplus_signed s Ns))).
Qed.

Lemma decision_not_nan (rs : list Region.t) (src dst : ptr) (amount : double) :
  (forall r, In r rs -> numeric r = true) ->
  decision rs src dst = Some amount -> is_nan amount = false.
Proof.
  intros Hrs. rewrite decision_deref.
  destruct (deref rs src) as [s|] eqn:Es; [|discriminate].
  destruct (deref rs dst) as [d|] eqn:Ed; [|discriminate].
  destruct src as [i|]; [|discriminate]. destruct dst as [j|]; [|discriminate].
  cbn [deref] in Es, Ed. apply nth_error_In in Es, Ed.
  apply decisionOf_not_nan; auto.
Qed.

(** A region of the data model does not both lack water and have water to
    spare. *)
Lemma deficit_or_surplus_guard (r : Region.t) :
  numeric r = true ->
  (computeDeficit (Some r) <=? 0) = true
  \/ (computeSafeSurplus (Some r) <=? 0) = true.
Proof.
  intros Hnum. rewrite computeDeficit_guard, computeSafeSurplus_guard by assumption.
  pose proof (keepLevel_ge_need r Hnum) as Hk.
  pose proof (keepLevel_not_nan r Hnum) as Nk.
  apply numeric_inv in Hnum as (Nl & Nn & _).
  destruct (Region.waterNeed r <=? Region.waterLevel r) eqn:E; [left; reflexivity|].
  right. apply leb_false_inv in E; try assumption.
  apply leb_intro; auto. lia.
Qed.

Lemma decision_exclusive (rs : list Region.t) (src mid dst : ptr) :
  (forall r, In r rs -> numeric r = true) ->
  decision rs src mid = None \/ decision rs mid dst = None.
Proof.
  intros Hrs. rewrite !decision_deref.
  destruct (deref rs mid) as [r|] eqn:Er; [|right; reflexivity].
  assert (Nr : numeric r = true).
  { destruct mid as [i|]; [|discriminate]. cbn [deref] in Er.
    apply Hrs. eapply nth_error_In. exact Er. }
  destruct (deficit_or_surplus_guard r Nr) as [H | H].
  - left. destruct (deref rs src) as [s|]; [|reflexivity].
    unfold decisionOf. rewrite H. reflexivity.
  - right. destruct (deref rs dst) as [d|]; [|reflexivity].
    unfold decisionOf. rewrite H, orb_true_r. reflexivity.
Qed.

(** X11.  For regions whose numbers can be compared, no region is both
    given water and taken water from in the same hour: of an attempt into a
    region and an attempt out of that region, at least one leaves the
    manager as it is. *)
Theorem tryTransfer_never_relays (m : AcequiaManager)
    (src mid dst canalIn canalOut : ptr) :
  (forall r, In r (regions m) -> numeric r = true) ->
  tryTransfer src mid canalIn m = m \/ tryTransfer mid dst canalOut m = m.
Proof.
  intros Hrs. rewrite !tryTransfer_decision.
  destruct (@decision_exclusive (regions m) src mid dst Hrs) as [-> | ->];
    [left | right]; apply with_canals_id.
Qed.

Lemma tryTransfer_never_relays_witness :
  tryTransfer (Some 0%nat) (Some 1%nat) (Some 0%nat) sampleManager = sampleManager
  \/ tryTransfer (Some 1%nat) (Some 2%nat) (Some 1%nat) sampleManager = sampleManager.
Proof.
  apply (@tryTransfer_never_relays sampleManager
           (Some 0%nat) (Some 1%nat) (Some 2%nat) (Some 0%nat) (Some 1%nat)).
  intros r [<- | [<- | [<- | []]]]; reflexivity.
Defined.

(** ** The canals after a pass *)

Lemma hourlyPass_eq (rr : RegionRoles) (cr : CanalRoles) (m : AcequiaManager) :
  hourlyPass rr cr m = with_canals (canals (hourlyPass rr cr m)) m.
Proof.
  unfold hourlyPass. rewrite !tryTransfer_decision. reflexivity.
Qed.

Lemma Forall_update (A : Type) (P : A -> Prop) (f : A -> A) (i : nat) (l : list A) :
  (forall x, P (f x)) -> Forall P l -> Forall P (update i f l).
Proof.
  intros Hf H. revert i. induction H as [|x l Hx Hl IH]; intros [|i]; cbn;
    constructor; auto.
Qed.

Lemma applyDecision_Forall (P : Canal.t -> Prop) (p : ptr) (a : option double)
    (cs : list Canal.t) :
  (forall amount rate c, a = Some amount -> transferRate amount = Some rate ->
                         P (Canal.mk (Canal.name c) rate true)) ->
  Forall P cs -> Forall P (applyDecision p a cs).
Proof.
  intros Hw Hcs. unfold applyDecision, scheduleTransfer.
  destruct a as [amount|]; [|assumption].
  destruct p as [i|]; [|assumption].
  destruct (transferRate amount) as [rate|] eqn:Er; [|assumption].
  apply Forall_update; [|assumption].
  intros c. exact (Hw amount rate c eq_refl Er).
Qed.

(** X6.  For regions whose numbers can be compared, every canal is, after a
    pass, either closed with rate zero or open with a rate above zero and at
    most one, whatever the pointers of the pass designate. *)
Theorem hourlyPass_rates_in_range (rr : RegionRoles) (cr : CanalRoles)
    (m : AcequiaManager) :
  (forall r, In r (regions m) -> numeric r = true) ->
  forall c, In c (canals (hourlyPass rr cr m)) -> closed c \/ flowing c.
Proof.
  intros Hrs. apply Forall_forall. rewrite hourlyPass_canals.
  assert (Hw : forall src dst amount rate c,
            decision (regions m) src dst = Some amount ->
            transferRate amount = Some rate ->
            closed (Canal.mk (Canal.name c) rate true)
            \/ flowing (Canal.mk (Canal.name c) rate true)).
  { intros src dst amount rate c Hd Hr. right.
    destruct (@transferRate_range amount rate (decision_not_nan _ _ _ Hrs Hd) Hr).
    repeat split; assumption. }
  repeat (apply applyDecision_Forall; [intros amount rate c Hd Hr; eapply Hw; eassumption|]).
  eapply Forall_impl; [|apply closeAllCanals_closed]. intros c Hc. left. exact Hc.
Qed.

Lemma hourlyPass_rates_in_range_witness :
  Forall (fun c => closed c \/ flowing c)
    (canals (hourlyPass (findRegions (regions sampleManager))
               (findCanals (canals sampleManager)) sampleManager)).
Proof.
  apply Forall_forall.
  apply (@hourlyPass_rates_in_range (findRegions (regions sampleManager))
           (findCanals (canals sampleManager)) sampleManager).
  intros r [<- | [<- | [<- | []]]]; reflexivity.
Defined.

Lemma openCount_update (f : Canal.t -> Canal.t) (i : nat) (cs : list Canal.t) :
  (openCount (update i f cs) <= S (openCount cs))%nat.
Proof.
  unfold openCount. revert i. induction cs as [|c cs IH]; intros [|i]; cbn [update filter].
  - cbn. lia.
  - cbn. lia.
  - destruct (Canal.isOpen (f c)), (Canal.isOpen c); cbn [List.length]; lia.
  - specialize (IH i). destruct (Canal.isOpen c); cbn [List.length]; lia.
Qed.

Lemma openCount_applyDecision (p : ptr) (a : option double) (cs : list Canal.t) :
  (openCount (applyDecision p a cs)
   <= openCount cs + match a with Some _ => 1 | None => 0 end)%nat.
Proof.
  unfold applyDecision, scheduleTransfer.
  destruct a as [amount|]; [|lia].
  destruct p as [i|]; [|lia].
  destruct (transferRate amount); [|lia].
  pose proof (openCount_update
                (fun c => Canal.toggleOpen true (Canal.setFlowRate d c)) i cs). lia.
Qed.

Lemma openCount_closeAllCanals (cs : list Canal.t) :
  openCount (closeAllCanals cs) = 0%nat.
Proof.
  unfold openCount, closeAllCanals. induction cs as [|c cs IH]; [reflexivity|].
  cbn [map filter Canal.toggleOpen Canal.isOpen]. exact IH.
Qed.

(** X12.  For regions whose numbers can be compared, a pass leaves at most
    two canals open: the four transfers of the topology exclude one another
    wherever a region would have to receive and to give in the same hour. *)
Theorem hourlyPass_opens_at_most_two (rr : RegionRoles) (cr : CanalRoles)
    (m : AcequiaManager) :
  (forall r, In r (regions m) -> numeric r = true) ->
  (openCount (canals (hourlyPass rr cr m)) <= 2)%nat.
Proof.
  intros Hrs. rewrite hourlyPass_canals.
  pose proof (@decision_exclusive (regions m) (north rr) (south rr) (east rr) Hrs) as HAB.
  pose proof (@decision_exclusive (regions m) (east rr) (north rr) (south rr) Hrs) as HDA.
  pose proof (@decision_exclusive (regions m) (north rr) (east rr) (north rr) Hrs) as HCD.
  pose proof (@decision_exclusive (regions m) (south rr) (east rr) (north rr) Hrs) as HBD.
  set (dA := decision (regions m) (north rr) (south rr)) in *.
  set (dC := decision (regions m) (north rr) (east rr)) in *.
  set (dB := decision (regions m) (south rr) (east rr)) in *.
  set (dD := decision (regions m) (east rr) (north rr)) in *.
  set (c0 := closeAllCanals (canals m)).
  pose proof (openCount_closeAllCanals (canals m)) as H0. fold c0 in H0.
  pose proof (openCount_applyDecision (canalA cr) dA c0) as H1.
  set (c1 := applyDecision (canalA cr) dA c0) in *.
  pose proof (openCount_applyDecision (canalC cr) dC c1) as H2.
  set (c2 := applyDecision (canalC cr) dC c1) in *.
  pose proof (openCount_applyDecision (canalB cr) dB c2) as H3.
  set (c3 := applyDecision (canalB cr) dB c2) in *.
  pose proof (openCount_applyDecision (canalD cr) dD c3) as H4.
  set (c4 := applyDecision (canalD cr) dD c3) in *.
  clearbody c0 c1 c2 c3 c4.
  destruct dA, dB, dC, dD;
    try (destruct HAB; discriminate); try (destruct HDA; discriminate);
    try (destruct HCD; discriminate); try (destruct HBD; discriminate); lia.
Qed.

Lemma hourlyPass_opens_at_most_two_witness :
  (openCount (canals (hourlyPass (findRegions (regions thirstyManager))
                        (findCanals (canals thirstyManager)) thirstyManager))
   <= 2)%nat.
Proof.
  apply (@hourlyPass_opens_at_most_two (findRegions (regions thirstyManager))
           (findCanals (canals thirstyManager)) thirstyManager).
  intros r [<- | [<- | [<- | []]]]; reflexivity.
Defined.

(** ** What a pass depends on *)

Lemma closeAllCanals_names (cs cs' : list Canal.t) :
  map Canal.name cs' = map Canal.name cs ->
  closeAllCanals cs' = closeAllCanals cs.
Proof.
  intros H. unfold closeAllCanals.
  change (map (fun c => Canal.toggleOpen false (Canal.setFlowRate 0 c)) cs')
    with (map (fun c => Canal.mk (Canal.name c) 0 false) cs').
  change (map (fun c => Canal.toggleOpen false (Canal.setFlowRate 0 c)) cs)
    with (map (fun c => Canal.mk (Canal.name c) 0 false) cs).
  rewrite <- (map_map Canal.name (fun n => Canal.mk n 0 false) cs').
  rewrite <- (map_map Canal.name (fun n => Canal.mk n 0 false) cs).
  rewrite H. reflexivity.
Qed.

Lemma hourlyPass_names (rr : RegionRoles) (cr : CanalRoles) (m : AcequiaManager) :
  map Canal.name (canals (hourlyPass rr cr m)) = map Canal.name (canals m).
Proof.
  rewrite hourlyPass_canals, !applyDecision_names.
  unfold closeAllCanals. rewrite map_map. reflexivity.
Qed.

Lemma hourlyPass_prior_state (rr : RegionRoles) (cr : CanalRoles)
    (m : AcequiaManager) (cs' : list Canal.t) :
  map Canal.name cs' = map Canal.name (canals m) ->
  hourlyPass rr cr (with_canals cs' m) = hourlyPass rr cr m.
Proof.
  intros H.
  rewrite (hourlyPass_eq rr cr (with_canals cs' m)), (hourlyPass_eq rr cr m).
  rewrite !hourlyPass_canals. cbn [with_canals canals regions].
  rewrite (@closeAllCanals_names _ _ H). reflexivity.
Qed.

(** X5.  A pass does not read the rates and gates it finds: two managers
    that differ only in the rates and gates of their canals leave the pass in
    the same state, and a second pass right after a first one changes
    nothing. *)
Theorem hourlyPass_idempotent (rr : RegionRoles) (cr : CanalRoles)
    (m : AcequiaManager) :
  (forall cs', map Canal.name cs' = map Canal.name (canals m) ->
               hourlyPass rr cr (with_canals cs' m) = hourlyPass rr cr m)
  /\ hourlyPass rr cr (hourlyPass rr cr m) = hourlyPass rr cr m.
Proof.
  split; [intros cs'; apply hourlyPass_prior_state|].
  rewrite (hourlyPass_eq rr cr m) at 1.
  apply hourlyPass_prior_state. apply hourlyPass_names.
Qed.

(** ** The pass, canal by canal, for any collection *)

Lemma nth_error_applyDecision (p : ptr) (a : option double) (cs : list Canal.t)
    (j : nat) :
  nth_error (applyDecision p a cs) j
  = if ptrIs p j then option_map (scheduledCanal a) (nth_error cs j)
    else nth_error cs j.
Proof.
  unfold applyDecision, scheduleTransfer, scheduledCanal, ptrIs.
  destruct a as [amount|].
  - destruct p as [i|]; [|reflexivity].
    destruct (transferRate amount) as [rate|].
    + apply nth_error_update.
    + destruct (Nat.eqb i j); [destruct (nth_error cs j)|]; reflexivity.
  - destruct p as [i|]; [|reflexivity].
    destruct (Nat.eqb i j); [destruct (nth_error cs j)|]; reflexivity.
Qed.

(** A canal after a pass, for arbitrary pointers: reset, then written once
    for every pointer that designates it, in the order of the four calls. *)
Lemma hourlyPass_nth (rr : RegionRoles) (cr : CanalRoles) (m : AcequiaManager)
    (j : nat) (c : Canal.t) :
  nth_error (canals m) j = Some c ->
  nth_error (canals (hourlyPass rr cr m)) j
  = Some
      (let rs := regions m in
       let c0 := resetCanal c in
       let c1 := if ptrIs (canalA cr) j
                 then scheduledCanal (decision rs (north rr) (south rr)) c0 else c0 in
       let c2 := if ptrIs (canalC cr) j
                 then scheduledCanal (decision rs (north rr) (east rr)) c1 else c1 in
       let c3 := if ptrIs (canalB cr) j
                 then scheduledCanal (decision rs (south rr) (east rr)) c2 else c2 in
       if ptrIs (canalD cr) j
       then scheduledCanal (decision rs (east rr) (north rr)) c3 else c3).
Proof.
  intros Hc. rewrite hourlyPass_canals, !nth_error_applyDecision.
  unfold closeAllCanals. rewrite nth_error_map, Hc. cbv zeta.
  fold (resetCanal c).
  destruct (ptrIs (canalA cr) j), (ptrIs (canalC cr) j),
    (ptrIs (canalB cr) j), (ptrIs (canalD cr) j); reflexivity.
Qed.

Lemma ptrIs_true (p : ptr) (j : nat) : ptrIs p j = true <-> p = Some j.
Proof.
  unfold ptrIs. destruct p as [i|]; [|split; discriminate].
  rewrite Nat.eqb_eq. split; congruence.
Qed.

Lemma carries_keyOf (k : role) (c : Canal.t) :
  carries k (Canal.name c) = true <-> keyOf (Canal.name c) = Some k.
Proof. rewrite <- hasRole_carries. apply hasRole_keyOf. Qed.

(** X4.  In any collection of canals, a pass leaves a canal in the state
    planned for its role when its name carries a key and no later canal
    carries the same key; every other canal (one whose name carries no key,
    or one followed by a canal of the same key) is left closed with rate
    zero. *)
Theorem hourlyPass_canal_outcome (rr : RegionRoles) (m : AcequiaManager)
    (j : nat) (c : Canal.t) :
  nth_error (canals m) j = Some c ->
  let after := canals (hourlyPass rr (findCanals (canals m)) m) in
  (forall k,
     keyOf (Canal.name c) = Some k ->
     (forall j' c', (j < j')%nat -> nth_error (canals m) j' = Some c' ->
                    keyOf (Canal.name c') <> Some k) ->
     nth_error after j = Some (plannedCanal (regions m) rr c))
  /\ (keyOf (Canal.name c) = None
      \/ (exists j' c', (j < j')%nat /\ nth_error (canals m) j' = Some c'
                        /\ keyOf (Canal.name c') = keyOf (Canal.name c)) ->
      nth_error after j = Some (resetCanal c)).
Proof.
  intros Hc. cbv zeta. rewrite (hourlyPass_nth rr _ m j Hc). cbv zeta.
  set (cr := findCanals (canals m)).
  assert (Hhit : forall k, ptrIs (getRole k cr) j = true ->
            keyOf (Canal.name c) = Some k
            /\ forall j' c', (j < j')%nat -> nth_error (canals m) j' = Some c' ->
                             keyOf (Canal.name c') <> Some k).
  { intros k Hk. apply ptrIs_true in Hk. apply findCanals_some in Hk.
    destruct Hk as (x & Hx & Hkx & Hafter). rewrite Hc in Hx. injection Hx as <-.
    split; [apply carries_keyOf; exact Hkx|].
    intros j' c' Hj' Hc' Hk'. apply carries_keyOf in Hk'.
    rewrite (Hafter j' c' Hj' Hc') in Hk'. discriminate. }
  split.
  - intros k Hk Hlast.
    assert (Hown : ptrIs (getRole k cr) j = true).
    { apply ptrIs_true. apply findCanals_some. exists c.
      split; [assumption|]. split; [apply carries_keyOf; assumption|].
      intros j' c' Hj' Hc'. destruct (carries k (Canal.name c')) eqn:E; [|reflexivity].
      apply carries_keyOf in E. destruct (Hlast j' c' Hj' Hc' E). }
    assert (Hall : forall k', ptrIs (getRole k' cr) j = roleEqb k' k).
    { intros k'. destruct (ptrIs (getRole k' cr) j) eqn:E.
      - destruct (Hhit k' E) as [Hk' _].
        assert (k' = k) as -> by congruence. destruct k; reflexivity.
      - destruct k, k'; try reflexivity; cbn [getRole] in *; congruence. }
    unfold plannedCanal. rewrite Hk. fold (resetCanal c).
    rewrite (Hall RoleA : ptrIs (canalA cr) j = _),
            (Hall RoleB : ptrIs (canalB cr) j = _),
            (Hall RoleC : ptrIs (canalC cr) j = _),
            (Hall RoleD : ptrIs (canalD cr) j = _).
    destruct k; reflexivity.
  - intros Hcase.
    assert (Hmiss : forall k, ptrIs (getRole k cr) j = false).
    { intros k. destruct (ptrIs (getRole k cr) j) eqn:E; [|reflexivity].
      destruct (Hhit k E) as [Hk Hlast].
      destruct Hcase as [Hnone | (j' & c' & Hj' & Hc' & Hsame)]; [congruence|].
      destruct (Hlast j' c' Hj' Hc'). congruence. }
    rewrite (Hmiss RoleA : ptrIs (canalA cr) j = false),
            (Hmiss RoleB : ptrIs (canalB cr) j = false),
            (Hmiss RoleC : ptrIs (canalC cr) j = false),
            (Hmiss RoleD : ptrIs (canalD cr) j = false).
    reflexivity.
Qed.

Lemma hourlyPass_canal_outcome_witness :
  nth_error (canals (hourlyPass (findRegions (regions twinManager))
                       (findCanals (canals twinManager)) twinManager)) 2
    = Some (plannedCanal (regions twinManager) (findRegions (regions twinManager))
              (Canal.mk "A (new)" 0 false))
  /\ nth_error (canals (hourlyPass (findRegions (regions twinManager))
                          (findCanals (canals twinManager)) twinManager)) 0
     = Some (resetCanal (Canal.mk "A" 0.5 true))
  /\ nth_error (canals (hourlyPass (findRegions (regions twinManager))
                          (findCanals (canals twinManager)) twinManager)) 1
     = Some (resetCanal (Canal.mk "Spillway" 1 true)).
Proof.
  split; [|split].
  - apply (proj1 (@hourlyPass_canal_outcome (findRegions (regions twinManager))
                    twinManager 2 (Canal.mk "A (new)" 0 false) eq_refl) RoleA eq_refl).
    intros j' c' Hj' Hc'.
    destruct j' as [|[|[|[|j']]]]; try lia; cbn in Hc'.
    + injection Hc' as <-. discriminate.
    + destruct j'; discriminate.
  - apply (proj2 (@hourlyPass_canal_outcome (findRegions (regions twinManager))
                    twinManager 0 (Canal.mk "A" 0.5 true) eq_refl)).
    right. exists 2%nat, (Canal.mk "A (new)" 0 false).
    split; [lia | split; reflexivity].
  - apply (proj2 (@hourlyPass_canal_outcome (findRegions (regions twinManager))
                    twinManager 1 (Canal.mk "Spillway" 1 true) eq_refl)).
    left. reflexivity.
Defined.

(** ** Collections that lack a region or a canal *)

Lemma decision_null (rs : list Region.t) (src dst : ptr) :
  src = None \/ dst = None -> decision rs src dst = None.
Proof. intros [-> | ->]; [reflexivity | destruct src; reflexivity]. Qed.

Lemma applyDecision_null (a : option double) (cs : list Canal.t) :
  applyDecision None a cs = cs.
Proof. destruct a; reflexivity. Qed.

(** X8.  When the collection holds no region for two of the three names
    "North", "South" and "East" (an empty collection included), or no canal
    whose name contains one of the letters A, B, C and D, the pointers stay
    null and a pass does nothing but close every canal. *)
Theorem hourlyPass_unresolved (m : AcequiaManager) :
  (exists k1 k2,
     k1 <> k2
     /\ (forall r, In r (regions m) -> Region.name r <> placeName k1)
     /\ (forall r, In r (regions m) -> Region.name r <> placeName k2))
  \/ (forall c, In c (canals m) -> keyOf (Canal.name c) = None) ->
  hourlyPass (findRegions (regions m)) (findCanals (canals m)) m
  = with_canals (closeAllCanals (canals m)) m.
Proof.
  intros H. rewrite hourlyPass_eq. f_equal. rewrite hourlyPass_canals.
  destruct H as [(k1 & k2 & Hne & H1 & H2) | Hcs].
  - assert (Hnull : forall k, (forall r, In r (regions m) -> Region.name r <> placeName k) ->
                              getPlace k (findRegions (regions m)) = None).
    { intros k Hk. apply findRegions_none. intros r Hr.
      apply String.eqb_neq. apply Hk. exact Hr. }
    apply Hnull in H1, H2.
    destruct k1, k2; try (destruct (Hne eq_refl)); cbn [getPlace] in H1, H2;
      rewrite !decision_null by (first [left; assumption | right; assumption]);
      reflexivity.
  - assert (Hnull : forall k, getRole k (findCanals (canals m)) = None).
    { intros k. apply findCanals_none. intros c Hc.
      destruct (carries k (Canal.name c)) eqn:E; [|reflexivity].
      apply carries_keyOf in E. rewrite (Hcs c Hc) in E. discriminate. }
    rewrite (Hnull RoleA : canalA _ = None), (Hnull RoleB : canalB _ = None),
            (Hnull RoleC : canalC _ = None), (Hnull RoleD : canalD _ = None).
    rewrite !applyDecision_null. reflexivity.
Qed.

Lemma hourlyPass_unresolved_witness :
  hourlyPass (findRegions (regions loneManager)) (findCanals (canals loneManager))
    loneManager
  = with_canals (closeAllCanals (canals loneManager)) loneManager.
Proof.
  apply (@hourlyPass_unresolved loneManager).
  left. exists PlaceSouth, PlaceEast.
  split; [discriminate|].
  split; intros r [<- | []]; discriminate.
Defined.

(** ** The order of the regions *)

Lemma named_name (k : place) (r : Region.t) :
  named k r = true <-> Region.name r = placeName k.
Proof. unfold named. apply String.eqb_eq. Qed.

(** A name that occurs once is resolved to the region of that name. *)
Lemma findRegions_named (k : place) (rs : list Region.t) (r : Region.t) :
  (forall x y, In x rs -> In y rs ->
               Region.name x = placeName k -> Region.name y = placeName k -> x = y) ->
  In r rs -> Region.name r = placeName k ->
  deref rs (getPlace k (findRegions rs)) = Some r.
Proof.
  intros Huniq Hin Hname.
  apply (@findRegionsFrom_unique k r rs [] (mkRegionRoles None None None)).
  - apply named_placeOf, named_name. exact Hname.
  - intros y Hy Hk. apply named_placeOf, named_name in Hk.
    apply Huniq; assumption.
  - left. exact Hin.
Qed.

Lemma findRegions_deref_inv (k : place) (rs : list Region.t) (r : Region.t) :
  deref rs (getPlace k (findRegions rs)) = Some r ->
  In r rs /\ Region.name r = placeName k.
Proof.
  destruct (getPlace k (findRegions rs)) as [j|] eqn:E; [|discriminate].
  cbn [deref]. intros Hr.
  apply findRegions_some in E as (x & Hx & Hk & _).
  rewrite Hr in Hx. injection Hx as <-.
  split; [eapply nth_error_In; exact Hr | apply named_name; exact Hk].
Qed.

Lemma findRegions_permutation (k : place) (rs rs' : list Region.t) :
  Permutation rs rs' ->
  (forall x y, In x rs -> In y rs ->
               Region.name x = placeName k -> Region.name y = placeName k -> x = y) ->
  deref rs (getPlace k (findRegions rs)) = deref rs' (getPlace k (findRegions rs')).
Proof.
  intros Hperm Huniq.
  destruct (deref rs (getPlace k (findRegions rs))) as [r|] eqn:E.
  - apply findRegions_deref_inv in E as [Hin Hname].
    symmetry. apply findRegions_named.
    + intros x y Hx Hy. apply Huniq; eapply Permutation_in;
        try eassumption; apply Permutation_sym; exact Hperm.
    + eapply Permutation_in; eassumption.
    + exact Hname.
  - destruct (deref rs' (getPlace k (findRegions rs'))) as [r'|] eqn:E'; [|reflexivity].
    apply findRegions_deref_inv in E' as [Hin Hname].
    apply (Permutation_in _ (Permutation_sym Hperm)) in Hin.
    rewrite (@findRegions_named k rs r' Huniq Hin Hname) in E. discriminate.
Qed.

(** X3.  When none of the names "North", "South" and "East" occurs twice in
    the collection of regions, whatever else the collection holds, each
    pointer resolves to the region of its name wherever it stands (and to
    nothing when there is none), and the canals that a pass leaves are the
    same for every ordering of the collection. *)
Theorem hourlyPass_region_order (rs rs' : list Region.t)
    (cr : CanalRoles) (m : AcequiaManager) :
  Permutation rs rs' ->
  (forall k x y, In x rs -> In y rs ->
                 Region.name x = placeName k -> Region.name y = placeName k ->
                 x = y) ->
  (forall k r,
     deref rs (getPlace k (findRegions rs)) = Some r
     <-> In r rs /\ Region.name r = placeName k)
  /\ (forall k,
        deref rs' (getPlace k (findRegions rs'))
        = deref rs (getPlace k (findRegions rs)))
  /\ canals (hourlyPass (findRegions rs') cr (with_regions rs' m))
     = canals (hourlyPass (findRegions rs) cr (with_regions rs m)).
Proof.
  intros Hperm Huniq.
  assert (Hsame : forall k,
            deref rs' (getPlace k (findRegions rs'))
            = deref rs (getPlace k (findRegions rs))).
  { intros k. symmetry. apply findRegions_permutation; [exact Hperm | apply Huniq]. }
  split; [|split; [exact Hsame|]].
  - intros k r. split; [apply findRegions_deref_inv|].
    intros [Hin Hname]. apply findRegions_named; [apply Huniq | assumption..].
  - rewrite !hourlyPass_canals. cbn [regions canals with_regions].
    rewrite !decision_deref.
    rewrite (Hsame PlaceNorth : deref rs' (north _) = _),
            (Hsame PlaceSouth : deref rs' (south _) = _),
            (Hsame PlaceEast : deref rs' (east _) = _).
    reflexivity.
Qed.

Lemma hourlyPass_region_order_witness :
  deref fourRegionsShuffled (north (findRegions fourRegionsShuffled)) = Some sampleNorth
  /\ deref fourRegionsShuffled (east (findRegions fourRegionsShuffled)) = Some sampleEast
  /\ canals (hourlyPass (findRegions fourRegionsShuffled) (findCanals sampleCanals)
               (with_regions fourRegionsShuffled sampleManager))
     = canals (hourlyPass (findRegions fourRegions) (findCanals sampleCanals)
                 (with_regions fourRegions sampleManager)).
Proof.
  assert (Hperm : Permutation fourRegions fourRegionsShuffled).
  { unfold fourRegions, fourRegionsShuffled.
    apply Permutation_sym.
    apply perm_trans with [sampleEast; sampleNorth; sampleSouth; sampleWest].
    - apply (Permutation_cons_app [sampleEast; sampleNorth; sampleSouth] []). reflexivity.
    - apply (Permutation_cons_app [sampleNorth; sampleSouth] [sampleWest]). reflexivity. }
  assert (Huniq : forall k x y, In x fourRegions -> In y fourRegions ->
            Region.name x = placeName k -> Region.name y = placeName k -> x = y).
  { intros k x y [<- | [<- | [<- | [<- | []]]]] [<- | [<- | [<- | [<- | []]]]];
      destruct k; cbn; intros; try reflexivity; discriminate. }
  destruct (@hourlyPass_region_order fourRegions fourRegionsShuffled
              (findCanals sampleCanals) sampleManager Hperm Huniq)
    as (Hres & Hsame & Hpass).
  split; [|split; [|exact Hpass]].
  - rewrite (Hsame PlaceNorth : deref _ (north _) = _).
    apply (Hres PlaceNorth). split; [cbn; auto | reflexivity].
  - rewrite (Hsame PlaceEast : deref _ (east _) = _).
    apply (Hres PlaceEast). split; [cbn; auto | reflexivity].
Defined.

(** ** The number of passes *)

Section Hours.

Variable nexthour : AcequiaManager -> AcequiaManager.

Hypothesis nexthour_hour : forall m, hour (nexthour m) = (hour m + 1)%Z.
Hypothesis nexthour_max : forall m, SimulationMax (nexthour m) = SimulationMax m.


End Hours.


(** ** No two pointers designate the same object *)

(** X13.  The pointers the two loops resolve are in range and never alias:
    two roles are never given the same canal and two places are never given
    the same region, so that within a pass no write to a canal is overwritten
    by the write of another role. *)
Theorem resolved_pointers_distinct (rs : list Region.t) (cs : list Canal.t) :
  (forall k k' j,
     getRole k (findCanals cs) = Some j ->
     ((j < List.length cs)%nat
      /\ (getRole k' (findCanals cs) = Some j -> k = k')))
  /\ (forall k k' j,
        getPlace k (findRegions rs) = Some j ->
        ((j < List.length rs)%nat
         /\ (getPlace k' (findRegions rs) = Some j -> k = k'))).
Proof.
  split; intros k k' j H.
  - apply findCanals_some in H as (c & Hc & Hk & _). split.
    + apply nth_error_Some. rewrite Hc. discriminate.
    + intros H'. apply findCanals_some in H' as (c' & Hc' & Hk' & _).
      rewrite Hc in Hc'. injection Hc' as <-.
      apply carries_keyOf in Hk, Hk'. congruence.
  - apply findRegions_some in H as (r & Hr & Hk & _). split.
    + apply nth_error_Some. rewrite Hr. discriminate.
    + intros H'. apply findRegions_some in H' as (r' & Hr' & Hk' & _).
      rewrite Hr in Hr'. injection Hr' as <-.
      apply named_placeOf in Hk, Hk'. congruence.
Qed.

(** ** The safety margin of the flood guard *)

Section Margin.

Local Open Scope Z_scope.

(** Rounding does not give zero when the truncated mantissa is not zero. *)
Lemma round_positive_trunc (q e' : Z) (l : location) :
  0 <= q -> 1 <= q / 2 ^ dropped q e' ->
  0 < SF2Z (binary_round_aux prec emax false q e' l).
Proof.
  intros Hq H1.
  destruct (@binary_round_aux_eq false q e' l Hq) as (m2 & Hm2 & ->).
  cbv zeta in *.
  assert (He1 : -1074 <= e' + dropped q e').
  { unfold dropped. rewrite fexp_eq. lia. }
  assert (H2 : 1 <= m2) by lia.
  pose proof (@trunc_positive m2 (e' + dropped q e') H2 He1) as H3.
  assert (Hn3 : 0 <= dropped m2 (e' + dropped q e')) by (unfold dropped; lia).
  destruct (m2 / 2 ^ dropped m2 (e' + dropped q e')) as [ | m3 | m3]; try lia.
  destruct (_ <=? 971); cbn [SF2Z cond_Zopp].
  - assert (0 < 2 ^ (e' + dropped q e' + dropped m2 (e' + dropped q e') + 1074))
      by (apply Z.pow_pos_nonneg; lia).
    lia.
  - apply Z.pow_pos_nonneg; lia.
Qed.

Lemma SFmul_0_8_pos (a : spec_float) :
  valid_binary a = true -> is_nan_sf a = false -> 0 < SF2Z a ->
  0 < SF2Z (SFmul prec emax a sf_0_8).
Proof.
  assert (Hbeyond : 0 < beyond) by (apply Z.pow_pos_nonneg; lia).
  intros Va Na Ha. unfold sf_0_8.
  destruct a as [sa | sa | | sa ma ea]; try discriminate; cbn [SF2Z] in Ha; try lia.
  - destruct sa; cbn [cond_Zopp] in Ha; [lia|]. cbn [SFmul xorb SF2Z cond_Zopp]. lia.
  - cbn [valid_binary] in Va. pose proof (finite_magnitude _ _ Va) as Hmag.
    destruct sa; cbn [cond_Zopp] in Ha; [lia|].
    pose proof (bounded_inv _ _ Va) as (Hea & Hma & _).
    cbn [SFmul xorb].
    destruct (Z.eq_dec ea (-1074)) as [-> | Hne].
    + destruct (Pos.eq_dec ma 1) as [-> | Hm1]; [vm_compute; reflexivity|].
      apply round_positive_trunc; [lia|].
      assert (Hq : 2 ^ 53 <= Zpos (ma * 7205759403792794)) by (rewrite Pos2Z.inj_mul; lia).
      set (q := Zpos (ma * 7205759403792794)) in *.
      pose proof (@Zdigits2_lower q ltac:(lia)) as Hd.
      unfold dropped. rewrite fexp_eq.
      set (k := Zdigits2 q) in *.
      assert (Hk : 1 <= k).
      { destruct (Z_lt_le_dec k 1) as [Hlt|]; [|assumption].
        assert (0 < 2 ^ 53) by (apply Z.pow_pos_nonneg; lia). 
        unfold k, q. cbn [Zdigits2]. lia. }
      apply Z.div_le_lower_bound; [apply Z.pow_pos_nonneg; lia|]. rewrite Z.mul_1_r.
      destruct (Z.max_spec 0 (Z.max (k + (-1074 + -53) - 53) (-1074) - (-1074 + -53)))
        as [[_ ->] | [_ ->]]; [|lia].
      destruct (Z.max_spec (k + (-1074 + -53) - 53) (-1074)) as [[_ ->] | [_ ->]].
      * change (-1074 - (-1074 + -53)) with 53. lia.
      * replace (k + (-1074 + -53) - 53 - (-1074 + -53)) with (k - 53) by lia.
        apply Z.le_trans with (2 ^ (k - 1)); [|assumption].
        apply Z.pow_le_mono_r; lia.
    + apply round_positive_trunc; [lia|].
      assert (Hq : 2 ^ 52 <= Zpos (ma * 7205759403792794)) by (rewrite Pos2Z.inj_mul; lia).
      set (q := Zpos (ma * 7205759403792794)) in *.
      pose proof (@Zdigits2_lower q ltac:(lia)) as Hd.
      unfold dropped. rewrite fexp_eq.
      set (k := Zdigits2 q) in *.
      assert (Hk : 1 <= k) by (unfold k, q; cbn [Zdigits2]; lia).
      apply Z.div_le_lower_bound; [apply Z.pow_pos_nonneg; lia|]. rewrite Z.mul_1_r.
      destruct (Z.max_spec 0 (Z.max (k + (ea + -53) - 53) (-1074) - (ea + -53)))
        as [[_ ->] | [_ ->]]; [|lia].
      destruct (Z.max_spec (k + (ea + -53) - 53) (-1074)) as [[_ ->] | [_ ->]].
      * apply Z.le_trans with (2 ^ 52); [|assumption].
        apply Z.pow_le_mono_r; lia.
      * replace (k + (ea + -53) - 53 - (ea + -53)) with (k - 53) by lia.
        apply Z.le_trans with (2 ^ (k - 1)); [|assumption].
        apply Z.pow_le_mono_r; lia.
Qed.

(** Four fifths of a positive value are positive: the product does not
    underflow to zero, not even for the smallest positive value. *)
Lemma mul_0_8_pos (x : float) :
  is_nan x = false -> 0 < F2Z x ->
  is_nan (x * 0.8) = false /\ 0 < F2Z (x * 0.8).
Proof.
  rewrite !is_nan_spec. unfold F2Z. rewrite mul_spec. intros Nx Hx.
  change (Prim2SF 0.8) with sf_0_8.
  pose proof (SFmul_0_8_pos _ (Prim2SF_valid x) Nx Hx) as Hp.
  split; [|exact Hp].
  destruct (SF64mul (Prim2SF x) sf_0_8) eqn:E; try reflexivity.
  unfold SF64mul in E. rewrite E in Hp. cbn [SF2Z] in Hp. lia.
Qed.

Lemma sub_guard (x y : float) :
  is_nan x = false -> is_nan y = false -> is_finite x || is_finite y = true ->
  (x - y <=? 0)%float = (x <=? y)%float.
Proof.
  intros Nx Ny Fxy.
  destruct (sub_sign x y Nx Ny Fxy) as (Nd & Hle & _).
  destruct (x <=? y)%float eqn:E.
  - apply leb_true_inv in E as (_ & _ & E).
    apply leb_intro; auto.
  - apply leb_false_inv in E; try assumption.
    destruct (@sub_strict x y Nx Ny E) as [N H]. apply leb_zero_false; assumption.
Qed.

Lemma ltb_negb_leb (x y : float) :
  is_nan x = false -> is_nan y = false -> (x <? y)%float = negb (y <=? x)%float.
Proof.
  intros Nx Ny. rewrite ltb_F2Z, leb_F2Z by assumption.
  destruct (Z.ltb_spec (F2Z x) (F2Z y)), (Z.leb_spec (F2Z y) (F2Z x)); cbn; lia.
Qed.

Lemma std_min3_pos (a b c : float) :
  is_nan a = false -> is_nan b = false -> is_nan c = false ->
  0 < F2Z a -> 0 < F2Z b -> 0 < F2Z c ->
  (std_min3 a b c <=? 0)%float = false.
Proof.
  intros Na Nb Nc Ha Hb Hc. unfold std_min3.
  destruct (b <? a)%float; [destruct (c <? b)%float | destruct (c <? a)%float];
    apply leb_zero_false; assumption.
Qed.

End Margin.

(** ** When an attempt schedules a transfer *)

(** X14.  For a source and a destination of the data model (no field is
    NaN, the destination's level is not negative), [tryTransfer] schedules a
    transfer exactly when the destination is below its need, the source is
    above the level it keeps, and the destination is below its capacity; the
    amount is then the smallest of the deficit, the surplus and four fifths
    of the room left, and it is positive, so that the last guard of
    [tryTransfer] never returns. *)
Theorem tryTransfer_closed_form (m : AcequiaManager) (src dst canal : ptr)
    (s d : Region.t) :
  deref (regions m) src = Some s ->
  deref (regions m) dst = Some d ->
  numeric s = true -> numeric d = true ->
  (0 <=? Region.waterLevel d) = true ->
  tryTransfer src dst canal m
  = if (Region.waterLevel d <? Region.waterNeed d)
       && (keepLevel s <? Region.waterLevel s)
       && (Region.waterLevel d <? Region.waterCapacity d)
    then
      with_canals
        (scheduleTransfer canal
           (std_min3 (Region.waterNeed d - Region.waterLevel d)
                     (Region.waterLevel s - keepLevel s)
                     ((Region.waterCapacity d - Region.waterLevel d) * 0.8))
           (canals m)) m
    else m.
Proof.
  intros Hs Hd Ns Nd Hlevel.
  rewrite tryTransfer_decision, decision_deref, Hs, Hd.
  pose proof (keepLevel_not_nan s Ns) as Nk.
  pose proof (computeDeficit_guard d Nd) as Gd.
  pose proof (computeSafeSurplus_guard s Ns) as Gs.
  apply numeric_inv in Ns as (Nls & _ & _).
  apply numeric_inv in Nd as (Nl & Nn & Nc).
  rewrite !ltb_negb_leb by assumption.
  unfold decisionOf. rewrite Gd, Gs.
  destruct (Region.waterNeed d <=? Region.waterLevel d) eqn:E1;
    cbn [negb andb orb]; [apply with_canals_id|].
  destruct (Region.waterLevel s <=? keepLevel s) eqn:E2;
    cbn [negb andb orb]; [apply with_canals_id|].
  pose proof (leb_false_inv Nn Nl E1) as H1.
  pose proof (leb_false_inv Nls Nk E2) as H2.
  assert (Fl : is_finite (Region.waterLevel d) = true).
  { destruct (nonneg_finite_or_top Hlevel) as [F | Htop]; [exact F|].
    pose proof (F2Z_le_beyond (Region.waterNeed d)). lia. }
  rewrite (@sub_guard (Region.waterCapacity d) (Region.waterLevel d)) 
    by (try assumption; rewrite Fl; apply orb_true_r).
  destruct (Region.waterCapacity d <=? Region.waterLevel d) eqn:E3;
    cbn [negb andb orb]; [apply with_canals_id|].
  pose proof (leb_false_inv Nc Nl E3) as H3.
  assert (Dd : computeDeficit (Some d) = Region.waterNeed d - Region.waterLevel d)
    by (unfold computeDeficit; rewrite E1; reflexivity).
  assert (Ds : computeSafeSurplus (Some s) = Region.waterLevel s - keepLevel s)
    by (rewrite computeSafeSurplus_unfold, E2; reflexivity).
  rewrite Dd, Ds.
  destruct (@sub_strict _ _ Nn Nl H1) as [Na Pa].
  destruct (@sub_strict _ _ Nls Nk H2) as [Nb Pb].
  destruct (@sub_strict _ _ Nc Nl H3) as [Nh Ph].
  destruct (@mul_0_8_pos _ Nh Ph) as [Nm Pm].
  rewrite std_min3_pos by assumption. reflexivity.
Qed.

Lemma tryTransfer_closed_form_witness :
  tryTransfer (Some 0%nat) (Some 1%nat) (Some 0%nat) sampleManager
  = with_canals (scheduleTransfer (Some 0%nat) 40 (canals sampleManager)) sampleManager
  /\ tryTransfer (Some 1%nat) (Some 2%nat) (Some 1%nat) sampleManager = sampleManager.
Proof.
  split.
  - exact (@tryTransfer_closed_form sampleManager (Some 0%nat) (Some 1%nat)
             (Some 0%nat) sampleNorth sampleSouth
             eq_refl eq_refl eq_refl eq_refl eq_refl).
  - exact (@tryTransfer_closed_form sampleManager (Some 1%nat) (Some 2%nat)
             (Some 1%nat) sampleSouth sampleEast
             eq_refl eq_refl eq_refl eq_refl eq_refl).
Defined.
